(** * A pedagogical RSA engine (the module imported as [@/lib/rsa])

    The TypeScript module exports the number-theory primitives [isPrime],
    [gcd], [modInverse], [modPow], the key derivation [generateRSAKeyPair],
    the character-wise codec [encryptMessage] / [decryptMessage] and the
    trace builders [getKeyGenerationSteps] / [getEncryptionSteps].
    The development also covers [generatePrimes], [getDecryptionSteps],
    [calculateModular] and the event handlers of the four components that
    call the module: the educational panel, the key generation panel, the
    encryption panel and the chat panel. A handler is a function from the
    state it reads to the state it leaves and the toast it shows.

    Modelling conventions.

    - A JavaScript [number] holding an integer is a [Z], and [*], [+] and
      [-] are those of [Z]. An IEEE double computes them without rounding
      as long as the result stays below 2^53 in absolute value; beyond
      that the source rounds and the definitions below do not. A theorem
      whose truth depends on the value of a product, of a numeral read by
      [parseInt] or of a number printed therefore carries the bound that
      keeps the source exact: [(n - 1)^2 < 2^53] for [modPow] with modulus
      [n], [|a| * m < 2^53] for [modInverse], [p * q < 2^53] for the fields
      of a key pair, [(p * q - 1)^2 < 2^53] for the whole key derivation,
      and values below 2^53 where a handler reads or prints them. The
      theorems without such a bound relate the functions of the source to
      each other and hold whatever the products round to.
    - [a % b] is the truncating remainder [Z.rem a b] (sign of the
      dividend); [Math.floor(a / 2)] is [a / 2] on [Z]. [a % 0] is [NaN]
      in JavaScript and is not modelled: the theorems about the codec
      assume a positive modulus.
    - For integers [i] and [0 <= n < 2^52], [i <= Math.sqrt(n)] is
      [i <= Z.sqrt n] (the floor of the square root). For
      [2^52 <= n < 2^53] the rounded square root can admit one candidate
      more, the integer just above the square root; [isPrime] returns the
      same value all the same, since it answers false only on a divisor
      found.
    - A JavaScript string is the list of its UTF-16 code units.
    - A [while] / [for] loop is a [Fixpoint] on a step budget that returns
      [OutOfFuel] when the budget is used up; each top-level function passes
      a budget computed from its arguments, and the theorems below show
      that the budget is never exhausted on the inputs they speak about.
    - [throw new Error(msg)] is [Throw k], with [k] the error kind whose
      message is [msg]. *)

From Stdlib Require Import Ascii Decimal DecimalPos Sorted.
From Stdlib Require Import String DecimalString.
From Stdlib Require Import ZArith List Lia Bool.
From Stdlib Require Import Znumtheory Zmod.
Import ListNotations.

Local Open Scope Z_scope.

(** ** Outcomes of a call *)

(** The error kinds of the specification. The source raises three of
    them, each as [new Error(message)]; the other three are never raised
    by any function of the module. *)
Inductive ErrorKind : Type :=
| InvalidPrime          (* 'Both p and q must be prime numbers' *)
| DuplicatePrime        (* 'p and q must be different prime numbers' *)
| KeyDerivationFailed   (* 'Could not generate valid private key' *)
| NoValidExponent
| MalformedCiphertext
| OutOfRangeCharacter.

Definition message (k : ErrorKind) : option string :=
  match k with
  | InvalidPrime => Some "Both p and q must be prime numbers"%string
  | DuplicatePrime => Some "p and q must be different prime numbers"%string
  | KeyDerivationFailed => Some "Could not generate valid private key"%string
  | NoValidExponent | MalformedCiphertext | OutOfRangeCharacter => None
  end.

Inductive outcome (A : Type) : Type :=
| Return (a : A)
| Throw (k : ErrorKind)
| OutOfFuel.

Arguments Return {A} a.
Arguments Throw {A} k.
Arguments OutOfFuel {A}.

Definition bind {A B : Type} (c : outcome A) (f : A -> outcome B) : outcome B :=
  match c with
  | Return a => f a
  | Throw k => Throw k
  | OutOfFuel => OutOfFuel
  end.

Notation "x <- c ;; k" := (bind c (fun x => k))
  (at level 61, c at next level, right associativity).

Fixpoint mapM {A B : Type} (f : A -> outcome B) (l : list A) : outcome (list B) :=
  match l with
  | [] => Return []
  | a :: l' => b <- f a ;; bs <- mapM f l' ;; Return (b :: bs)
  end.

(** ** Number-theory primitives *)

(** [for (let i = 3; i <= Math.sqrt(n); i += 2) if (n % i === 0) return false;
     return true] *)
Fixpoint isPrime_loop (fuel : nat) (n i : Z) : outcome bool :=
  match fuel with
  | O => OutOfFuel
  | S fuel' =>
      if i <=? Z.sqrt n then
        if Z.rem n i =? 0 then Return false
        else isPrime_loop fuel' n (i + 2)
      else Return true
  end.

Definition isPrime (n : Z) : outcome bool :=
  if n <? 2 then Return false
  else if n =? 2 then Return true
  else if Z.rem n 2 =? 0 then Return false
  else isPrime_loop (S (Z.to_nat (Z.sqrt n))) n 3.

(** [while (b !== 0) { const temp = b; b = a % b; a = temp; } return a] *)
Fixpoint gcd_loop (fuel : nat) (a b : Z) : outcome Z :=
  match fuel with
  | O => OutOfFuel
  | S fuel' =>
      if negb (b =? 0) then gcd_loop fuel' b (Z.rem a b)
      else Return a
  end.

Definition gcd (a b : Z) : outcome Z :=
  gcd_loop (S (Z.abs_nat b)) a b.

(** [for (let x = 1; x < m; x++) if ((a * x) % m === 1) return x;
     return null]
    The products [a * x] are the source's as long as [|a| * m < 2^53]. *)
Fixpoint modInverse_loop (fuel : nat) (a m x : Z) : outcome (option Z) :=
  match fuel with
  | O => OutOfFuel
  | S fuel' =>
      if x <? m then
        if Z.rem (a * x) m =? 1 then Return (Some x)
        else modInverse_loop fuel' a m (x + 1)
      else Return None
  end.

Definition modInverse (a m : Z) : outcome (option Z) :=
  modInverse_loop (S (Z.to_nat m)) a m 1.

(** [while (exp > 0) { if (exp % 2 === 1) result = (result * base) % mod;
                      exp = Math.floor(exp / 2);
                      base = (base * base) % mod; }
     return result]
    ([modulus] is the source's parameter [mod], a reserved word here.)
    After the first reduction [base] and [result] stay below the modulus
    in absolute value, so the products are the source's as long as
    [(mod - 1)^2 < 2^53]. *)
Fixpoint modPow_loop (fuel : nat) (result base exp modulus : Z) : outcome Z :=
  match fuel with
  | O => OutOfFuel
  | S fuel' =>
      if 0 <? exp then
        let result' :=
          if Z.rem exp 2 =? 1 then Z.rem (result * base) modulus else result in
        modPow_loop fuel' result' (Z.rem (base * base) modulus) (exp / 2) modulus
      else Return result
  end.

Definition modPow (base exp modulus : Z) : outcome Z :=
  modPow_loop (S (S (Z.to_nat (Z.log2 exp)))) 1 (Z.rem base modulus) exp modulus.

(** [calculateModular] forwards to [modPow]. *)
Definition calculateModular (base exp modulus : Z) : outcome Z :=
  modPow base exp modulus.

(** The same loop, observed: the values of [result], [base] and [exp]
    each time the condition [exp > 0] is evaluated. The first entry holds
    the values the loop starts from, the last one the value returned. *)
Fixpoint modPow_loop_states (fuel : nat) (result base exp modulus : Z)
  : list (Z * Z * Z) :=
  match fuel with
  | O => []
  | S fuel' =>
      (result, base, exp) ::
      (if 0 <? exp then
         let result' :=
           if Z.rem exp 2 =? 1 then Z.rem (result * base) modulus else result in
         modPow_loop_states fuel' result' (Z.rem (base * base) modulus) (exp / 2)
                            modulus
       else [])
  end.

Definition modPow_states (base exp modulus : Z) : list (Z * Z * Z) :=
  modPow_loop_states (S (S (Z.to_nat (Z.log2 exp)))) 1 (Z.rem base modulus)
                     exp modulus.

(** ** Key derivation *)

Module PublicKey.
Record t : Type := { e : Z; n : Z }.
End PublicKey.

Module PrivateKey.
Record t : Type := { d : Z; n : Z }.
End PrivateKey.

Record RSAKeyPair : Type := {
  publicKey : PublicKey.t;
  privateKey : PrivateKey.t;
  p : Z;
  q : Z;
  phi : Z
}.

(** [let e = 3; while (gcd(e, phi) !== 1) e += 2;] *)
Fixpoint find_e (fuel : nat) (e phi : Z) : outcome Z :=
  match fuel with
  | O => OutOfFuel
  | S fuel' =>
      g <- gcd e phi ;;
      if negb (g =? 1) then find_e fuel' (e + 2) phi
      else Return e
  end.

(** [!isPrime(p) || !isPrime(q)]: the right operand is evaluated only
    when the left one is false. *)
Definition not_both_prime (p q : Z) : outcome bool :=
  bp <- isPrime p ;;
  if negb bp then Return true
  else bq <- isPrime q ;; Return (negb bq).

(** [if (!d)] holds for [null] and for the number 0. The fields [n] and
    [phi] are the source's as long as [p * q < 2^53], and the search of
    [modInverse] is the source's as long as [e * phi < 2^53]. *)
Definition generateRSAKeyPair (p q : Z) : outcome RSAKeyPair :=
  bad <- not_both_prime p q ;;
  if bad then Throw InvalidPrime
  else if p =? q then Throw DuplicatePrime
  else
    let n := p * q in
    let phi := (p - 1) * (q - 1) in
    e <- find_e (S (Z.to_nat phi)) 3 phi ;;
    d <- modInverse e phi ;;
    match d with
    | None | Some 0 => Throw KeyDerivationFailed
    | Some d =>
        Return {| publicKey := {| PublicKey.e := e; PublicKey.n := n |};
                  privateKey := {| PrivateKey.d := d; PrivateKey.n := n |};
                  p := p; q := q; phi := phi |}
    end.

(** ** Strings *)

(** A string is the list of its UTF-16 code units, each in [0, 65536). *)
Definition js_string : Type := list Z.

Definition well_formed (s : js_string) : Prop :=
  Forall (fun u => 0 <= u < 65536) s.

Definition is_high_surrogate (u : Z) : bool := (55296 <=? u) && (u <=? 56319).
Definition is_low_surrogate (u : Z) : bool := (56320 <=? u) && (u <=? 57343).

(** [Array.from(message)] iterates the string by code points: a high
    surrogate followed by a low surrogate is one element holding both
    units, any other unit is an element of its own. *)
Fixpoint Array_from (s : js_string) : list js_string :=
  match s with
  | [] => []
  | u :: rest =>
      match rest with
      | v :: rest' =>
          if is_high_surrogate u && is_low_surrogate v
          then [u; v] :: Array_from rest'
          else [u] :: Array_from rest
      | [] => [[u]]
      end
  end.

(** [char.charCodeAt(0)]: the first code unit. The elements of
    [Array.from] are never empty. *)
Definition charCodeAt0 (char : js_string) : Z :=
  match char with
  | u :: _ => u
  | [] => 0
  end.

(** [String.fromCharCode(v)]: the one-unit string whose unit is
    ToUint16(v), that is [v] modulo 2^16. *)
Definition String_fromCharCode (v : Z) : js_string := [v mod 65536].

(** [parts.join('')] *)
Definition join (parts : list js_string) : js_string := concat parts.

(** [`${x}`] for an integer [x]: its decimal numeral. This is what the
    source prints for [|x| < 2^53]; a double beyond that is printed with
    fewer significant digits, and in exponent notation from 10^21 on. *)
Definition num (x : Z) : string := NilZero.string_of_int (Z.to_int x).

(** ** Message codec *)

Definition encryptMessage (message : js_string) (publicKey : PublicKey.t)
  : outcome (list Z) :=
  mapM (fun char =>
          modPow (charCodeAt0 char) (PublicKey.e publicKey) (PublicKey.n publicKey))
       (Array_from message).

Definition decryptMessage (ciphertext : list Z) (privateKey : PrivateKey.t)
  : outcome js_string :=
  parts <- mapM (fun num =>
                   r <- modPow num (PrivateKey.d privateKey) (PrivateKey.n privateKey) ;;
                   Return (String_fromCharCode r))
                ciphertext ;;
  Return (join parts).

(** ** Traces *)

Record RSAMathSteps : Type := {
  nCalculation : string;
  phiCalculation : string;
  eCalculation : string;
  dCalculation : string
}.

Record EncryptionSteps : Type := {
  character : js_string;
  ascii : Z;
  calculation : string;
  result : Z
}.

Local Open Scope string_scope.

Definition getKeyGenerationSteps (p q : Z) (keyPair : RSAKeyPair) : RSAMathSteps :=
  {| nCalculation :=
       num p ++ " × " ++ num q ++ " = " ++ num (PublicKey.n (publicKey keyPair));
     phiCalculation :=
       "(" ++ num p ++ "-1) × (" ++ num q ++ "-1) = " ++ num (phi keyPair);
     eCalculation :=
       num (PublicKey.e (publicKey keyPair)) ++ " (coprime with φ(n))";
     dCalculation :=
       num (PublicKey.e (publicKey keyPair)) ++ "⁻¹ mod " ++ num (phi keyPair)
       ++ " = " ++ num (PrivateKey.d (privateKey keyPair)) |}.

Definition getEncryptionSteps (message : js_string) (publicKey : PublicKey.t)
  : outcome (list EncryptionSteps) :=
  mapM (fun char =>
          let ascii := charCodeAt0 char in
          result <- modPow ascii (PublicKey.e publicKey) (PublicKey.n publicKey) ;;
          Return {| character := char;
                    ascii := ascii;
                    calculation :=
                      num ascii ++ "^" ++ num (PublicKey.e publicKey)
                      ++ " mod " ++ num (PublicKey.n publicKey);
                    result := result |})
       (Array_from message).

Definition getDecryptionSteps (ciphertext : list Z) (privateKey : PrivateKey.t)
  : outcome (list EncryptionSteps) :=
  mapM (fun n =>
          result <- modPow n (PrivateKey.d privateKey) (PrivateKey.n privateKey) ;;
          Return {| character := String_fromCharCode result;
                    ascii := result;
                    calculation :=
                      num n ++ "^" ++ num (PrivateKey.d privateKey)
                      ++ " mod " ++ num (PrivateKey.n privateKey);
                    result := result |})
       ciphertext.

(** The records of a key-derivation trace, in the order of the fields. *)
Definition records (s : RSAMathSteps) : list string :=
  [nCalculation s; phiCalculation s; eCalculation s; dCalculation s].

Local Close Scope string_scope.

(** ** Auxiliary definitions for the statements *)

(** Candidates tried by the loop from [i] on: [i], [i+2], ... up to the
    integer square root of [n]. *)
Definition no_divisor_from (n i : Z) : Prop :=
  forall k, 0 <= k -> i + 2 * k <= Z.sqrt n -> Z.rem n (i + 2 * k) <> 0.

(** At a state of the loop of [modPow]: [base] is reduced, and the two
    products the next iteration may form, [result * base] and
    [base * base], are non-negative integers below 2^53, which a double
    holds exactly. *)
Definition products_exact (modulus : Z) (s : Z * Z * Z) : Prop :=
  let '(result, base, _) := s in
  0 <= base < modulus
  /\ 0 <= result * base < 2 ^ 53
  /\ 0 <= base * base < 2 ^ 53.

(** The record that [generateRSAKeyPair p q] builds from [e] and [d]. *)
Definition key_of (p q e d : Z) : RSAKeyPair :=
  {| publicKey := {| PublicKey.e := e; PublicKey.n := p * q |};
     privateKey := {| PrivateKey.d := d; PrivateKey.n := p * q |};
     p := p; q := q; phi := (p - 1) * (q - 1) |}.

(** A one-unit string. *)
Definition singleton (u : Z) : js_string := [u].

(** U+1F600 (a grinning face): the surrogate pair D83D DE00. *)
Definition grinning_face : js_string := [55357; 56832].

(** The key pair of the primes 11 and 13. *)
Definition kp_11_13 : RSAKeyPair :=
  {| publicKey := {| PublicKey.e := 7; PublicKey.n := 143 |};
     privateKey := {| PrivateKey.d := 103; PrivateKey.n := 143 |};
     p := 11; q := 13; phi := 120 |}.

(** The key pair of the primes 359 and 373. *)
Definition kp_359_373 : RSAKeyPair :=
  {| publicKey := {| PublicKey.e := 5; PublicKey.n := 133907 |};
     privateKey := {| PrivateKey.d := 106541; PrivateKey.n := 133907 |};
     p := 359; q := 373; phi := 133176 |}.

(** ** The list of primes up to a bound *)

(** [for (let i = 2; i <= max; i++) if (isPrime(i)) primes.push(i);
     return primes]
    The counter and the array are the source's as long as [max < 2^32]
    (an array holds fewer than 2^32 elements, and [i++] is exact below
    2^53). *)
Fixpoint generatePrimes_loop (fuel : nat) (max i : Z) (primes : list Z)
  : outcome (list Z) :=
  match fuel with
  | O => OutOfFuel
  | S fuel' =>
      if i <=? max then
        b <- isPrime i ;;
        generatePrimes_loop fuel' max (i + 1) (if b then primes ++ [i] else primes)
      else Return primes
  end.

Definition generatePrimes (max : Z) : outcome (list Z) :=
  generatePrimes_loop (S (Z.to_nat max)) max 2 [].

(** ** More of the string and number built-ins *)

(** The code units of a string literal of the source (ASCII only). *)
Definition units (s : string) : js_string :=
  map (fun c => Z.of_nat (Ascii.nat_of_ascii c)) (list_ascii_of_string s).

(** [String(x)] for an integer [x], as [Array.prototype.join] and
    [Number.prototype.toString] produce it. *)
Definition Number_toString (x : Z) : js_string := units (num x).

(** The code units that [trim] and [parseInt] skip: WhiteSpace and
    LineTerminator of the language. *)
Definition is_whitespace (u : Z) : bool :=
  (u =? 9) || (u =? 10) || (u =? 11) || (u =? 12) || (u =? 13) || (u =? 32)
  || (u =? 160) || (u =? 5760) || ((8192 <=? u) && (u <=? 8202))
  || (u =? 8232) || (u =? 8233) || (u =? 8239) || (u =? 8287)
  || (u =? 12288) || (u =? 65279).

Fixpoint dropWhile {A : Type} (f : A -> bool) (l : list A) : list A :=
  match l with
  | [] => []
  | a :: l' => if f a then dropWhile f l' else l
  end.

Fixpoint takeWhile {A : Type} (f : A -> bool) (l : list A) : list A :=
  match l with
  | [] => []
  | a :: l' => if f a then a :: takeWhile f l' else []
  end.

Definition trimStart (s : js_string) : js_string := dropWhile is_whitespace s.
Definition trimEnd (s : js_string) : js_string :=
  rev (dropWhile is_whitespace (rev s)).
Definition trim (s : js_string) : js_string := trimEnd (trimStart s).

(** The value of a code unit as a digit: 0-9, then a-z and A-Z for 10-35. *)
Definition digit_value (u : Z) : option Z :=
  if (48 <=? u) && (u <=? 57) then Some (u - 48)
  else if (97 <=? u) && (u <=? 122) then Some (u - 87)
  else if (65 <=? u) && (u <=? 90) then Some (u - 55)
  else None.

Definition is_digit (R : Z) (u : Z) : bool :=
  match digit_value u with
  | Some v => v <? R
  | None => false
  end.

Definition digit (u : Z) : Z :=
  match digit_value u with
  | Some v => v
  | None => 0
  end.

(** [parseInt(string)] with no radix argument; [None] is [NaN]. Leading
    white space is skipped, then an optional sign, then the prefix [0x] or
    [0X] selects radix 16 (otherwise 10); the digits up to the first code
    unit that is not a digit are read, and there must be one at least.
    The value is the integer the digits denote, which is what the source
    returns when that integer is below 2^53 in absolute value (beyond, the
    source returns the nearest double). *)
Definition parseInt (string : js_string) : option Z :=
  let s0 := trimStart string in
  let sign := match s0 with 45 :: _ => -1 | _ => 1 end in
  let s1 := match s0 with
            | 43 :: t => t
            | 45 :: t => t
            | _ => s0
            end in
  let '(R, s2) := match s1 with
                  | 48 :: x :: t =>
                      if (x =? 120) || (x =? 88) then (16, t) else (10, s1)
                  | _ => (10, s1)
                  end in
  let digits := takeWhile (is_digit R) s2 in
  match digits with
  | [] => None
  | _ => Some (sign * fold_left (fun acc u => acc * R + digit u) digits 0)
  end.

(** [isNaN(x)] *)
Definition isNaN (x : option Z) : bool :=
  match x with None => true | Some _ => false end.

(** [!x] for a number [x]: true for [NaN] and for 0. *)
Definition not_number (x : option Z) : bool :=
  match x with
  | None => true
  | Some v => v =? 0
  end.

(** [!s] for a string [s]: true for the empty string. *)
Definition not_string (s : js_string) : bool :=
  match s with [] => true | _ => false end.

(** [parts.join(sep)] *)
Fixpoint Array_join (sep : js_string) (parts : list js_string) : js_string :=
  match parts with
  | [] => []
  | [a] => a
  | a :: rest => a ++ sep ++ Array_join sep rest
  end.

(** [s.split(sep)] for a separator of one code unit. *)
Fixpoint String_split (sep : Z) (s : js_string) : list js_string :=
  match s with
  | [] => [[]]
  | u :: t =>
      if u =? sep then [] :: String_split sep t
      else match String_split sep t with
           | piece :: pieces => (u :: piece) :: pieces
           | [] => [[u]]
           end
  end.

(** ** The components that call the engine *)

(** [error.message] of a caught [Error]. *)
Definition error_message (k : ErrorKind) : string :=
  match message k with
  | Some m => m
  | None => EmptyString
  end.

(** [try { body } catch (error) { handler }]: the handler runs on a throw. *)
Definition try_catch {A B : Type} (body : outcome A) (on_return : A -> B)
           (on_throw : ErrorKind -> B) : outcome B :=
  match body with
  | Return a => Return (on_return a)
  | Throw k => Return (on_throw k)
  | OutOfFuel => OutOfFuel
  end.

(** The argument of [toast({ title, description, variant })]. *)
Record Toast : Type := {
  title : string;
  description : string;
  variant : option string
}.

Local Open Scope string_scope.

(** The educational panel. Each handler returns the string it stores
    with [setPrimeResult] / [setModResult]. *)
Module EducationalMode.

(** [num] of the source is [n] here; [!num] holds for [NaN] and 0. *)
Definition handlePrimeCheck (primeCheck : js_string) : outcome string :=
  match parseInt primeCheck with
  | None => Return "Please enter a valid positive number"
  | Some n =>
      if not_number (Some n) || (n <? 1)%Z
      then Return "Please enter a valid positive number"
      else
        b <- isPrime n ;;
        if b then Return (num n ++ " is prime!")
        else Return (num n ++ " is not prime")
  end.

Definition handleModularCalculation (modBase modExp modMod : js_string)
  : outcome string :=
  let base := parseInt modBase in
  let exp := parseInt modExp in
  let modulus := parseInt modMod in
  match base, exp, modulus with
  | Some b, Some e, Some m =>
      if not_number base || not_number exp || not_number modulus
      then Return "Please fill all fields"
      else if (m <=? 0)%Z then Return "Modulus must be positive"
      else
        try_catch (calculateModular b e m)
                  (fun result =>
                     num b ++ "^" ++ num e ++ " mod " ++ num m ++ " = " ++ num result)
                  (fun _ => "Calculation error")
  | _, _, _ => Return "Please fill all fields"
  end.

End EducationalMode.

(** The key generation panel. *)
Module RSAKeyGenerator.

Record State : Type := {
  keyPair : option RSAKeyPair;
  mathSteps : option RSAMathSteps;
  loading : bool
}.

(** What a call does: the state it leaves, the toast it shows, and the
    key pair handed to [onKeysGenerated], if any. *)
Record Effects : Type := {
  state : State;
  toast : Toast;
  keysGenerated : option RSAKeyPair
}.

Definition failure (st : State) (description : string) : Effects :=
  {| state := {| keyPair := keyPair st; mathSteps := mathSteps st;
                 loading := false |};
     toast := {| title := "Key Generation Error";
                 description := description;
                 variant := Some "destructive" |};
     keysGenerated := None |}.

Definition handleGenerateKeys (onKeysGenerated : bool) (primeP primeQ : js_string)
           (st : State) : outcome Effects :=
  let p := parseInt primeP in
  let q := parseInt primeQ in
  match p, q with
  | Some p', Some q' =>
      if not_number p || not_number q
      then Return (failure st "Please enter both prime numbers")
      else
        try_catch (generateRSAKeyPair p' q')
                  (fun keys =>
                     let steps := getKeyGenerationSteps p' q' keys in
                     {| state := {| keyPair := Some keys;
                                    mathSteps := Some steps;
                                    loading := false |};
                        toast := {| title := "Keys Generated Successfully";
                                    description :=
                                      "RSA key pair has been generated from your prime numbers.";
                                    variant := None |};
                        keysGenerated :=
                          if onKeysGenerated then Some keys else None |})
                  (fun error => failure st (error_message error))
  | _, _ => Return (failure st "Please enter both prime numbers")
  end.

End RSAKeyGenerator.

(** The encryption panel. *)
Module RSAEncryption.

Record State : Type := {
  message : js_string;
  encryptedMessage : js_string;
  decryptedMessage : js_string;
  encryptionSteps : list EncryptionSteps;
  decryptionSteps : list EncryptionSteps
}.

Definition error_toast (title description : string) : Toast :=
  {| title := title; description := description;
     variant := Some "destructive" |}.

Definition handleEncrypt (keyPair : option RSAKeyPair) (st : State)
  : outcome (State * Toast) :=
  match keyPair with
  | None =>
      Return (st, error_toast "No Keys Available" "Please generate RSA keys first.")
  | Some keyPair =>
      if not_string (trim (message st))
      then Return (st, error_toast "No Message" "Please enter a message to encrypt.")
      else
        try_catch
          (encrypted <- encryptMessage (message st) (publicKey keyPair) ;;
           steps <- getEncryptionSteps (message st) (publicKey keyPair) ;;
           Return (encrypted, steps))
          (fun '(encrypted, steps) =>
             ({| message := message st;
                 encryptedMessage :=
                   Array_join [32] (map Number_toString encrypted);
                 decryptedMessage := [];
                 encryptionSteps := steps;
                 decryptionSteps := [] |},
              {| title := "Message Encrypted";
                 description := "Your message has been encrypted successfully.";
                 variant := None |}))
          (fun error => (st, error_toast "Encryption Error" (error_message error)))
  end.

Definition handleDecrypt (keyPair : option RSAKeyPair) (st : State)
  : outcome (State * Toast) :=
  match keyPair with
  | None =>
      Return (st, error_toast "No Keys Available" "Please generate RSA keys first.")
  | Some keyPair =>
      if not_string (trim (encryptedMessage st))
      then Return (st, error_toast "No Encrypted Message"
                                   "Please encrypt a message first.")
      else
        let ciphertext :=
          map (fun num => parseInt (trim num))
              (String_split 32 (encryptedMessage st)) in
        if existsb isNaN ciphertext
        then Return (st, error_toast "Decryption Error"
                                     "Invalid encrypted message format")
        else
          let ciphertext :=
            map (fun num => match num with Some v => v | None => 0 end)
                ciphertext in
          try_catch
            (decrypted <- decryptMessage ciphertext (privateKey keyPair) ;;
             steps <- getDecryptionSteps ciphertext (privateKey keyPair) ;;
             Return (decrypted, steps))
            (fun '(decrypted, steps) =>
               ({| message := message st;
                   encryptedMessage := encryptedMessage st;
                   decryptedMessage := decrypted;
                   encryptionSteps := encryptionSteps st;
                   decryptionSteps := steps |},
                {| title := "Message Decrypted";
                   description := "Your message has been decrypted successfully.";
                   variant := None |}))
            (fun error => (st, error_toast "Decryption Error" (error_message error)))
  end.

End RSAEncryption.

(** The chat panel. *)
Module SecureChat.

(** The arguments of [wsClient.sendMessage]. *)
Record Sent : Type := {
  roomId : string;
  message : js_string;
  encryptedMessage : option js_string;
  rsaPublicKey : option js_string;
  rsaModulus : option js_string
}.

Definition ROOM_ID : string := "general".

(** [handleSendMessage]: what is sent, if anything, the new value of the
    input field and the toast shown, if any. [wsClient] and [user] tell
    whether each is set. *)
Definition handleSendMessage (wsClient user : bool) (keyPair : option RSAKeyPair)
           (newMessage : js_string)
  : outcome (option Sent * js_string * option Toast) :=
  if negb wsClient || not_string (trim newMessage) || negb user
  then Return (None, newMessage, None)
  else
    fields <-
      match keyPair with
      | Some keyPair =>
          try_catch (encryptMessage newMessage (publicKey keyPair))
                    (fun encrypted =>
                       (Some (Array_join [32] (map Number_toString encrypted)),
                        Some (Number_toString (PublicKey.e (publicKey keyPair))),
                        Some (Number_toString (PublicKey.n (publicKey keyPair))),
                        None))
                    (fun _ =>
                       (None, None, None,
                        Some {| title := "Encryption Error";
                                description :=
                                  "Failed to encrypt message. Sending unencrypted.";
                                variant := Some "destructive" |}))
      | None => Return (None, None, None, None)
      end ;;
    let '(encryptedMsg, rsaPublicKey, rsaModulus, shown) := fields in
    Return (Some {| roomId := ROOM_ID;
                    message := newMessage;
                    encryptedMessage := encryptedMsg;
                    rsaPublicKey := rsaPublicKey;
                    rsaModulus := rsaModulus |},
            [], shown).

End SecureChat.

Local Close Scope string_scope.

(** ** Auxiliary definitions for the statements on the components *)

Definition decimal (u : Z) : Prop := 48 <= u <= 57.

Definition accumulate (R : Z) (acc u : Z) : Z := acc * R + digit u.

(** [parseInt] after the white space, the sign and the prefix. *)
Definition parse_digits (R : Z) (sign : Z) (s : js_string) : option Z :=
  match takeWhile (is_digit R) s with
  | [] => None
  | digits => Some (sign * fold_left (accumulate R) digits 0)
  end.

Definition panel_HI : RSAEncryption.State :=
  {| RSAEncryption.message := [72; 73];
     RSAEncryption.encryptedMessage := [];
     RSAEncryption.decryptedMessage := [];
     RSAEncryption.encryptionSteps := [];
     RSAEncryption.decryptionSteps := [] |}.

Definition panel_bad : RSAEncryption.State :=
  {| RSAEncryption.message := [];
     RSAEncryption.encryptedMessage := units "19 x3";
     RSAEncryption.decryptedMessage := [];
     RSAEncryption.encryptionSteps := [];
     RSAEncryption.decryptionSteps := [] |}.

(** ** Worked examples *)

Example keys_11_13 :
  generateRSAKeyPair 11 13 =
  Return {| publicKey := {| PublicKey.e := 7; PublicKey.n := 143 |};
            privateKey := {| PrivateKey.d := 103; PrivateKey.n := 143 |};
            p := 11; q := 13; phi := 120 |}.
Proof. reflexivity. Qed.

Example encrypt_HI :
  encryptMessage [72; 73] {| PublicKey.e := 7; PublicKey.n := 143 |}
  = Return [19; 83].
Proof. reflexivity. Qed.

Example decrypt_HI :
  decryptMessage [19; 83] {| PrivateKey.d := 103; PrivateKey.n := 143 |}
  = Return [72; 73].
Proof. reflexivity. Qed.

Example steps_11_13 :
  records (getKeyGenerationSteps 11 13
    {| publicKey := {| PublicKey.e := 7; PublicKey.n := 143 |};
       privateKey := {| PrivateKey.d := 103; PrivateKey.n := 143 |};
       p := 11; q := 13; phi := 120 |})
  = [ "11 × 13 = 143"; "(11-1) × (13-1) = 120";
      "7 (coprime with φ(n))"; "7⁻¹ mod 120 = 103" ]%string.
Proof. reflexivity. Qed.

Example primes_30 : generatePrimes 30 = Return [2; 3; 5; 7; 11; 13; 17; 19; 23; 29].
Proof. reflexivity. Qed.

Example parseInt_examples :
  parseInt (units "  42px") = Some 42
  /\ parseInt (units "-17") = Some (-17)
  /\ parseInt (units "0x1F") = Some 31
  /\ parseInt (units "abc") = None
  /\ parseInt (units "") = None
  /\ parseInt (units "+") = None
  /\ parseInt (units "012") = Some 12.
Proof. repeat split. Qed.

Example split_examples :
  String_split 32 (units "19 83") = [units "19"; units "83"]
  /\ String_split 32 (units "") = [[]]
  /\ String_split 32 (units " 7  ") = [[]; units "7"; []; []].
Proof. repeat split. Qed.

Example trim_example : trim (units "  a b  ") = units "a b".
Proof. reflexivity. Qed.

Example prime_check_97 :
  EducationalMode.handlePrimeCheck (units "97") = Return "97 is prime!"%string.
Proof. reflexivity. Qed.

(** ** Primality test *)

Lemma isPrime_loop_spec (fuel : nat) :
  forall n i,
    Z.sqrt n < i + 2 * Z.of_nat fuel ->
    exists b, isPrime_loop (S fuel) n i = Return b
              /\ (b = true <-> no_divisor_from n i).
Proof.
  induction fuel as [|fuel IH]; intros n i Hfuel;
    cbn [isPrime_loop];
    destruct (Z.leb_spec i (Z.sqrt n)) as [Hle|Hgt];
    try (exists true; split; [reflexivity|]; split; [|reflexivity];
         intros _ k Hk Hk'; lia).
  - lia.
  - destruct (Z.eqb_spec (Z.rem n i) 0) as [Hz|Hnz].
    + exists false. split; [reflexivity|]. split; [discriminate|].
      intros Hnd. exfalso. apply (Hnd 0); [lia | lia |].
      now replace (i + 2 * 0) with i by lia.
    + destruct (IH n (i + 2)) as (b & Hb & Hiff); [lia|].
      exists b. split; [exact Hb|]. rewrite Hiff. split.
      * intros Hnd k Hk Hk'.
        destruct (Z.eq_dec k 0) as [->|Hk0].
        -- now replace (i + 2 * 0) with i by lia.
        -- replace (i + 2 * k) with (i + 2 + 2 * (k - 1)) by lia.
           apply Hnd; lia.
      * intros Hnd k Hk Hk'.
        replace (i + 2 + 2 * k) with (i + 2 * (k + 1)) by lia.
        apply Hnd; lia.
Qed.

Lemma isPrime_total (n : Z) : exists b, isPrime n = Return b.
Proof.
  unfold isPrime.
  destruct (n <? 2); [now exists false|].
  destruct (n =? 2); [now exists true|].
  destruct (Z.rem n 2 =? 0); [now exists false|].
  destruct (isPrime_loop_spec (Z.to_nat (Z.sqrt n)) n 3) as (b & Hb & _).
  - pose proof (Z.sqrt_nonneg n). lia.
  - now exists b.
Qed.

Lemma sqrt_lt_self (n : Z) : 2 <= n -> Z.sqrt n < n.
Proof. intros H. apply Z.sqrt_lt_lin. lia. Qed.

(** A composite number has a divisor between 2 and its square root. *)
Lemma small_divisor (n m : Z) :
  1 < m < n -> (m | n) -> exists a, 1 < a <= Z.sqrt n /\ (a | n).
Proof.
  intros Hm [c Hc].
  assert (Hc1 : 1 < c) by nia.
  destruct (Z_le_gt_dec m c) as [Hle|Hgt].
  - exists m. split; [|now exists c].
    split; [lia|]. apply Z.sqrt_le_square; nia.
  - exists c. split; [|exists m; lia].
    split; [lia|]. apply Z.sqrt_le_square; nia.
Qed.

Lemma rem2_odd (n : Z) : 0 <= n -> Z.rem n 2 <> 0 -> exists k, n = 2 * k + 1.
Proof.
  intros Hn H. rewrite Z.rem_mod_nonneg in H by lia.
  exists (n / 2). pose proof (Z.mod_pos_bound n 2 ltac:(lia)).
  pose proof (Z.div_mod n 2 ltac:(lia)). lia.
Qed.

Lemma isPrime_loop_prime (n : Z) :
  2 < n -> Z.rem n 2 <> 0 ->
  (no_divisor_from n 3 <-> Z.prime n).
Proof.
  intros Hn Hodd. split.
  - intros Hnd. split; [lia|]. intros m Hm Hdiv.
    destruct (small_divisor n m Hm Hdiv) as (a & Ha & Hadiv).
    assert (Hao : Z.rem a 2 <> 0).
    { intros Hz. apply Hodd. apply Z.rem_divide; [lia|].
      apply Z.rem_divide in Hz; [|lia].
      eapply Z.divide_trans; eassumption. }
    destruct (rem2_odd a ltac:(lia) Hao) as [k Hk].
    apply (Hnd (k - 1)); [lia | lia |].
    replace (3 + 2 * (k - 1)) with a by lia.
    apply Z.rem_divide; [lia | exact Hadiv].
  - intros [_ Hp] k Hk Hle Hz.
    apply Z.rem_divide in Hz; [|lia].
    apply (Hp (3 + 2 * k)); [|exact Hz].
    pose proof (sqrt_lt_self n ltac:(lia)). lia.
Qed.

Lemma isPrime_correct (n : Z) :
  exists b, isPrime n = Return b /\ (b = true <-> Z.prime n).
Proof.
  unfold isPrime.
  destruct (Z.ltb_spec n 2) as [Hlt|Hge].
  { exists false. split; [reflexivity|]. split; [discriminate|].
    intros [H _]; lia. }
  destruct (Z.eqb_spec n 2) as [->|Hne].
  { exists true. split; [reflexivity|]. split; [|reflexivity].
    intros _. split; [lia|]. intros m Hm. lia. }
  destruct (Z.eqb_spec (Z.rem n 2) 0) as [Hev|Hodd].
  { exists false. split; [reflexivity|]. split; [discriminate|].
    intros [_ Hp]. exfalso. apply (Hp 2); [lia|].
    apply Z.rem_divide; [lia | exact Hev]. }
  destruct (isPrime_loop_spec (Z.to_nat (Z.sqrt n)) n 3) as (b & Hb & Hiff).
  { pose proof (Z.sqrt_nonneg n). lia. }
  exists b. split; [exact Hb|].
  rewrite Hiff. apply isPrime_loop_prime; [lia | exact Hodd].
Qed.

Lemma isPrime_true_iff (n : Z) : isPrime n = Return true <-> Z.prime n.
Proof.
  destruct (isPrime_correct n) as (b & Hb & Hiff). rewrite Hb. split.
  - intros H. apply Hiff. congruence.
  - intros H. f_equal. now apply Hiff.
Qed.

Lemma isPrime_false_iff (n : Z) : isPrime n = Return false <-> ~ Z.prime n.
Proof.
  destruct (isPrime_correct n) as (b & Hb & Hiff). rewrite Hb. split.
  - intros H Hp. apply Hiff in Hp. congruence.
  - intros H. destruct b; [exfalso; now apply H, Hiff | reflexivity].
Qed.

(** ** Euclid's algorithm *)

Lemma gcd_loop_total (fuel : nat) :
  forall a b, (Z.abs_nat b < fuel)%nat -> exists g, gcd_loop fuel a b = Return g.
Proof.
  induction fuel as [|fuel IH]; intros a b Hfuel; [lia|].
  cbn [gcd_loop]. destruct (Z.eqb_spec b 0) as [->|Hb]; cbn [negb].
  - now exists a.
  - apply IH. pose proof (Z.rem_bound_abs a b Hb). lia.
Qed.

Lemma gcd_total (a b : Z) : exists g, gcd a b = Return g.
Proof. apply gcd_loop_total. lia. Qed.

Lemma gcd_loop_nonneg (fuel : nat) :
  forall a b, 0 <= a -> 0 <= b -> (Z.to_nat b < fuel)%nat ->
              gcd_loop fuel a b = Return (Z.gcd a b).
Proof.
  induction fuel as [|fuel IH]; intros a b Ha Hb Hfuel; [lia|].
  cbn [gcd_loop]. destruct (Z.eqb_spec b 0) as [->|Hb0]; cbn [negb].
  - rewrite Z.gcd_0_r, Z.abs_eq by lia. reflexivity.
  - rewrite Z.rem_mod_nonneg by lia.
    pose proof (Z.mod_pos_bound a b ltac:(lia)).
    rewrite IH by lia.
    f_equal. rewrite (Z.gcd_comm b (a mod b)), Z.gcd_mod by lia.
    apply Z.gcd_comm.
Qed.

Lemma gcd_nonneg (a b : Z) : 0 <= a -> 0 <= b -> gcd a b = Return (Z.gcd a b).
Proof. intros Ha Hb. apply gcd_loop_nonneg; lia. Qed.

(** ** Modular inverse by exhaustive search *)

Lemma modInverse_loop_spec (fuel : nat) :
  forall a m x,
    (0 < fuel)%nat -> m - x < Z.of_nat fuel ->
    (exists y, modInverse_loop fuel a m x = Return (Some y)
               /\ x <= y < m /\ Z.rem (a * y) m = 1
               /\ forall z, x <= z < y -> Z.rem (a * z) m <> 1)
    \/ (modInverse_loop fuel a m x = Return None
        /\ forall z, x <= z < m -> Z.rem (a * z) m <> 1).
Proof.
  induction fuel as [|fuel IH]; intros a m x Hpos Hfuel; [lia|].
  cbn [modInverse_loop].
  destruct (Z.ltb_spec x m) as [Hlt|Hge].
  - destruct (Z.eqb_spec (Z.rem (a * x) m) 1) as [Hone|Hnone].
    + left. exists x.
      split; [reflexivity|]. split; [lia|]. split; [exact Hone|].
      intros z Hz; lia.
    + destruct (IH a m (x + 1)) as [(y & Hy & Hr & Hinv & Hmin)|[Hn Hall]];
        try lia.
      * left. exists y.
        split; [exact Hy|]. split; [lia|]. split; [exact Hinv|].
        intros z Hz. destruct (Z.eq_dec z x) as [->|Hzx]; [exact Hnone|].
        apply Hmin; lia.
      * right. split; [exact Hn|].
        intros z Hz. destruct (Z.eq_dec z x) as [->|Hzx]; [exact Hnone|].
        apply Hall; lia.
  - right. split; [reflexivity|]. intros z Hz; lia.
Qed.

Lemma modInverse_spec (a m : Z) :
  (exists y, modInverse a m = Return (Some y)
             /\ 1 <= y < m /\ Z.rem (a * y) m = 1
             /\ forall z, 1 <= z < y -> Z.rem (a * z) m <> 1)
  \/ (modInverse a m = Return None
      /\ forall z, 1 <= z < m -> Z.rem (a * z) m <> 1).
Proof. apply modInverse_loop_spec; lia. Qed.

(** A product with remainder 1 forces coprimality. *)
Lemma rem_one_coprime (a m x : Z) : Z.rem (a * x) m = 1 -> Z.gcd a m = 1.
Proof.
  intros H.
  pose proof (Z.quot_rem' (a * x) m) as Hq. rewrite H in Hq.
  apply Z.bezout_1_gcd. exists x, (- ((a * x) ÷ m)). lia.
Qed.

Lemma modInverse_not_coprime (a m : Z) :
  Z.gcd a m <> 1 -> modInverse a m = Return None.
Proof.
  intros Hg.
  destruct (modInverse_spec a m) as [(y & _ & _ & Hinv & _)|[Hn _]];
    [|exact Hn].
  exfalso. apply Hg. eapply rem_one_coprime; eassumption.
Qed.

(** Existence of an inverse in [1, m). *)
Lemma inverse_exists (a m : Z) :
  1 < m -> Z.gcd a m = 1 -> exists x, 1 <= x < m /\ (a * x) mod m = 1.
Proof.
  intros Hm Hg.
  destruct (Z.gcd_bezout a m 1 Hg) as (u & v & Huv).
  exists (u mod m).
  assert (Hinv : (a * (u mod m)) mod m = 1).
  { rewrite Z.mul_mod_idemp_r by lia.
    replace (a * u) with (1 + (- v) * m) by lia.
    rewrite Z.mod_add by lia. apply Z.mod_1_l; lia. }
  split; [|exact Hinv].
  pose proof (Z.mod_pos_bound u m ltac:(lia)).
  destruct (Z.eq_dec (u mod m) 0) as [Hz|Hnz]; [|lia].
  rewrite Hz, Z.mul_0_r, Z.mod_0_l in Hinv by lia. discriminate.
Qed.

Lemma inverse_unique (a m x y : Z) :
  0 < x < m -> 0 < y < m ->
  (a * x) mod m = 1 -> (a * y) mod m = 1 -> x = y.
Proof.
  intros Hx Hy Hax Hay.
  assert (Hxy : x mod m = y mod m).
  { rewrite <- (Z.mul_1_r x) at 1. rewrite <- Hay.
    rewrite Z.mul_mod_idemp_r by lia.
    replace (x * (a * y)) with ((a * x) * y) by lia.
    rewrite <- Z.mul_mod_idemp_l by lia. rewrite Hax.
    now rewrite Z.mul_1_l. }
  rewrite !Z.mod_small in Hxy by lia. exact Hxy.
Qed.

Lemma modInverse_coprime (a m : Z) :
  0 <= a -> 1 < m -> Z.gcd a m = 1 ->
  exists x, modInverse a m = Return (Some x)
            /\ 0 < x < m /\ (a * x) mod m = 1.
Proof.
  intros Ha Hm Hg.
  destruct (modInverse_spec a m) as [(y & Hy & Hr & Hinv & _)|[_ Hall]].
  - exists y. split; [exact Hy|]. split; [lia|].
    rewrite <- Z.rem_mod_nonneg by nia. exact Hinv.
  - exfalso. destruct (inverse_exists a m Hm Hg) as (x & Hx & Hinv).
    apply (Hall x Hx). rewrite Z.rem_mod_nonneg by nia. exact Hinv.
Qed.

(** ** Square-and-multiply *)

Lemma modPow_fuel (exp : Z) :
  exp < 2 ^ Z.of_nat (S (Z.to_nat (Z.log2 exp))).
Proof.
  destruct (Z_lt_le_dec 0 exp) as [Hpos|Hneg].
  - pose proof (Z.log2_spec exp Hpos) as [_ H].
    pose proof (Z.log2_nonneg exp).
    replace (Z.of_nat (S (Z.to_nat (Z.log2 exp)))) with (Z.succ (Z.log2 exp))
      by lia.
    exact H.
  - pose proof (Z.pow_pos_nonneg 2 (Z.of_nat (S (Z.to_nat (Z.log2 exp))))
                  ltac:(lia) ltac:(lia)).
    lia.
Qed.

Lemma half_lt_pow2 (exp : Z) (fuel : nat) :
  exp < 2 ^ Z.of_nat (S fuel) -> exp / 2 < 2 ^ Z.of_nat fuel.
Proof.
  intros H. rewrite Nat2Z.inj_succ, Z.pow_succ_r in H by lia.
  apply Z.div_lt_upper_bound; lia.
Qed.

Lemma modPow_loop_S (fuel : nat) (result base exp modulus : Z) :
  modPow_loop (S fuel) result base exp modulus
  = if 0 <? exp then
      modPow_loop fuel
        (if Z.rem exp 2 =? 1 then Z.rem (result * base) modulus else result)
        (Z.rem (base * base) modulus) (exp / 2) modulus
    else Return result.
Proof. reflexivity. Qed.

(** The loop ends on every input: the exponent is halved at each turn. *)
Lemma modPow_loop_total (fuel : nat) :
  forall result base exp modulus,
    exp < 2 ^ Z.of_nat fuel ->
    exists r, modPow_loop (S fuel) result base exp modulus = Return r.
Proof.
  induction fuel as [|fuel IH]; intros result base exp modulus Hfuel.
  - cbn [modPow_loop]. destruct (Z.ltb_spec 0 exp); [cbn in Hfuel; lia|].
    now exists result.
  - rewrite modPow_loop_S. destruct (Z.ltb_spec 0 exp); [|now exists result].
    apply IH. now apply half_lt_pow2.
Qed.

Lemma modPow_total (base exp modulus : Z) :
  exists r, modPow base exp modulus = Return r.
Proof. apply modPow_loop_total, modPow_fuel. Qed.

Lemma modPow_nonpos_exp (base exp modulus : Z) :
  exp <= 0 -> modPow base exp modulus = Return 1.
Proof.
  intros H. unfold modPow. cbn [modPow_loop].
  destruct (Z.ltb_spec 0 exp); [lia | reflexivity].
Qed.

Lemma pow_half (base exp : Z) :
  0 < exp -> base ^ exp = (base * base) ^ (exp / 2) * base ^ (exp mod 2).
Proof.
  intros H.
  pose proof (Z.div_mod exp 2 ltac:(lia)) as Hdm.
  pose proof (Z.mod_pos_bound exp 2 ltac:(lia)).
  pose proof (Z.div_pos exp 2 ltac:(lia) ltac:(lia)).
  rewrite Hdm at 1.
  rewrite Z.pow_add_r, Z.pow_mul_r by lia.
  now rewrite Z.pow_2_r.
Qed.

Lemma modPow_loop_spec (fuel : nat) :
  forall result base exp modulus,
    0 < modulus -> 0 <= result -> 0 <= base ->
    exp < 2 ^ Z.of_nat fuel ->
    modPow_loop (S fuel) result base exp modulus
    = Return (if 0 <? exp then (result * base ^ exp) mod modulus else result).
Proof.
  induction fuel as [|fuel IH]; intros result base exp modulus Hm Hr Hb Hfuel.
  - cbn [modPow_loop]. destruct (Z.ltb_spec 0 exp); [cbn in Hfuel; lia|].
    reflexivity.
  - rewrite modPow_loop_S.
    destruct (Z.ltb_spec 0 exp) as [Hpos|Hnpos]; [|reflexivity].
    rewrite (Z.rem_mod_nonneg exp 2), (Z.rem_mod_nonneg (result * base)),
      (Z.rem_mod_nonneg (base * base)) by nia.
    pose proof (Z.mod_pos_bound (result * base) modulus Hm).
    pose proof (Z.mod_pos_bound (base * base) modulus Hm).
    pose proof (Z.mod_pos_bound exp 2 ltac:(lia)) as Hbit.
    pose proof (Z.div_mod exp 2 ltac:(lia)) as Hdm.
    rewrite IH;
      [| lia | destruct (exp mod 2 =? 1); lia | lia | now apply half_lt_pow2].
    f_equal.
    destruct (Z.ltb_spec 0 (exp / 2)) as [Hhalf|Hhalf].
    + rewrite (pow_half base exp Hpos).
      rewrite <- Z.mul_mod_idemp_r, Z.mod_pow_l, Z.mul_mod_idemp_r by lia.
      destruct (Z.eqb_spec (exp mod 2) 1) as [Hodd|Heven].
      * rewrite Hodd, Z.pow_1_r, Z.mul_mod_idemp_l by lia. f_equal. ring.
      * replace (exp mod 2) with 0 by lia.
        rewrite Z.pow_0_r. f_equal. ring.
    + assert (Hexp : exp = 1) by lia. subst exp.
      cbn. now rewrite Z.mul_1_r.
Qed.

(** On a non-negative base and a positive modulus [modPow] computes the
    modular power, except that it answers 1 for an exponent [<= 0]. *)
Lemma modPow_spec (base exp modulus : Z) :
  0 <= base -> 0 < modulus ->
  modPow base exp modulus
  = Return (if 0 <? exp then base ^ exp mod modulus else 1).
Proof.
  intros Hb Hm. unfold modPow.
  rewrite Z.rem_mod_nonneg by lia.
  pose proof (Z.mod_pos_bound base modulus Hm).
  rewrite modPow_loop_spec by (try lia; apply modPow_fuel).
  destruct (0 <? exp); [|reflexivity].
  now rewrite Z.mul_1_l, Z.mod_pow_l.
Qed.

(** ** The states of the loop *)

Lemma modPow_loop_states_S (fuel : nat) (result base exp modulus : Z) :
  modPow_loop_states (S fuel) result base exp modulus
  = (result, base, exp) ::
    (if 0 <? exp then
       modPow_loop_states
         fuel
         (if Z.rem exp 2 =? 1 then Z.rem (result * base) modulus else result)
         (Z.rem (base * base) modulus) (exp / 2) modulus
     else []).
Proof. reflexivity. Qed.

Lemma square_bound (x y m : Z) :
  0 <= x < m -> 0 <= y < m -> (m - 1) ^ 2 < 2 ^ 53 -> 0 <= x * y < 2 ^ 53.
Proof.
  intros Hx Hy Hm. split; [nia|].
  apply Z.le_lt_trans with ((m - 1) ^ 2); [|exact Hm].
  rewrite Z.pow_2_r. nia.
Qed.

Lemma modPow_loop_states_exact (fuel : nat) :
  forall result base exp modulus,
    0 < modulus -> (modulus - 1) ^ 2 < 2 ^ 53 ->
    0 <= base < modulus ->
    (0 <= result < modulus \/ result = 1) ->
    Forall (products_exact modulus)
           (modPow_loop_states fuel result base exp modulus).
Proof.
  induction fuel as [|fuel IH]; intros result base exp modulus Hm Hsq Hb Hr;
    [constructor|].
  rewrite modPow_loop_states_S. constructor.
  - unfold products_exact. split; [exact Hb|]. split.
    + destruct Hr as [Hr| ->].
      * now apply (square_bound result base modulus).
      * rewrite Z.mul_1_l.
        pose proof (square_bound base 1 modulus) as H.
        destruct (Z.eq_dec modulus 1) as [->|Hne]; [lia|].
        rewrite Z.mul_1_r in H. apply H; [exact Hb | lia | exact Hsq].
    + now apply (square_bound base base modulus).
  - destruct (0 <? exp); [|constructor].
    apply IH; try assumption.
    + apply Z.rem_bound_pos; [nia | exact Hm].
    + destruct (Z.rem exp 2 =? 1); [|exact Hr].
      left. apply Z.rem_bound_pos; [|exact Hm].
      destruct Hr as [Hr| ->]; nia.
Qed.

Lemma modPow_loop_states_last (fuel : nat) :
  forall result base exp modulus r,
    modPow_loop fuel result base exp modulus = Return r ->
    fst (fst (last (modPow_loop_states fuel result base exp modulus) (0, 0, 0)))
    = r.
Proof.
  induction fuel as [|fuel IH]; intros result base exp modulus r Hr;
    [discriminate|].
  rewrite modPow_loop_states_S. rewrite modPow_loop_S in Hr.
  destruct (0 <? exp).
  - specialize (IH _ _ _ _ _ Hr).
    destruct fuel as [|fuel]; [discriminate|].
    rewrite modPow_loop_states_S in *. exact IH.
  - injection Hr as <-. reflexivity.
Qed.

(** ** Key derivation *)

Lemma find_e_S (fuel : nat) (e phi : Z) :
  find_e (S fuel) e phi
  = (g <- gcd e phi ;;
     if negb (g =? 1) then find_e fuel (e + 2) phi else Return e).
Proof. reflexivity. Qed.

(** The search stops at the first candidate [e + 2j] coprime to [phi],
    provided some candidate [e + 2k] is. *)
Lemma find_e_spec (fuel : nat) :
  forall e phi k,
    0 <= e -> 0 <= phi -> 0 <= k < Z.of_nat fuel ->
    Z.gcd (e + 2 * k) phi = 1 ->
    exists j, 0 <= j <= k
              /\ find_e fuel e phi = Return (e + 2 * j)
              /\ Z.gcd (e + 2 * j) phi = 1
              /\ forall i, 0 <= i < j -> Z.gcd (e + 2 * i) phi <> 1.
Proof.
  induction fuel as [|fuel IH]; intros e phi k He Hphi Hk Hg; [lia|].
  rewrite find_e_S, gcd_nonneg by lia. cbn [bind].
  destruct (Z.eqb_spec (Z.gcd e phi) 1) as [Hone|Hnone]; cbn [negb].
  - exists 0. replace (e + 2 * 0) with e by lia.
    split; [lia|]. split; [reflexivity|]. split; [exact Hone|].
    intros i Hi; lia.
  - assert (Hk0 : k <> 0).
    { intros ->. now replace (e + 2 * 0) with e in Hg by lia. }
    destruct (IH (e + 2) phi (k - 1)) as (j & Hj & Hret & Hgj & Hmin);
      try lia.
    { now replace (e + 2 + 2 * (k - 1)) with (e + 2 * k) by lia. }
    exists (j + 1).
    replace (e + 2 * (j + 1)) with (e + 2 + 2 * j) by lia.
    split; [lia|]. split; [exact Hret|]. split; [exact Hgj|].
    intros i Hi. destruct (Z.eq_dec i 0) as [->|Hi0].
    + now replace (e + 2 * 0) with e by lia.
    + replace (e + 2 * i) with (e + 2 + 2 * (i - 1)) by lia.
      apply Hmin; lia.
Qed.

Lemma gcd_pred_self (n : Z) : Z.gcd (n - 1) n = 1.
Proof. apply Z.bezout_1_gcd. exists (-1), 1. lia. Qed.

Lemma odd_prime (p : Z) : Z.prime p -> p <> 2 -> exists h, p = 2 * h + 1.
Proof.
  intros [Hp Hdiv] Hne.
  apply rem2_odd; [lia|].
  intros Hz. apply Z.rem_divide in Hz; [|lia].
  apply (Hdiv 2); [lia | exact Hz].
Qed.

(** The totient of two distinct primes is even and at least 2. *)
Lemma totient_even (p q : Z) :
  Z.prime p -> Z.prime q -> p <> q ->
  exists h, 1 <= h /\ (p - 1) * (q - 1) = 2 * h.
Proof.
  intros Hp Hq Hne.
  pose proof (Z.prime_ge_2 p Hp). pose proof (Z.prime_ge_2 q Hq).
  destruct (Z.eq_dec p 2) as [->|Hp2].
  - destruct (odd_prime q Hq ltac:(lia)) as [h ->].
    exists h. split; lia.
  - destruct (odd_prime p Hp Hp2) as [h ->].
    exists (h * (q - 1)). split; nia.
Qed.

(** The exponent found for an even totient [phi >= 2]. *)
Lemma find_e_even (h : Z) :
  1 <= h ->
  exists j, 0 <= j
            /\ find_e (S (Z.to_nat (2 * h))) 3 (2 * h) = Return (3 + 2 * j)
            /\ Z.gcd (3 + 2 * j) (2 * h) = 1
            /\ (forall i, 0 <= i < j -> Z.gcd (3 + 2 * i) (2 * h) <> 1)
            /\ (3 + 2 * j < 2 * h \/ (h = 1 /\ j = 0)).
Proof.
  intros Hh. destruct (Z.eq_dec h 1) as [->|Hh1].
  - exists 0. split; [lia|]. split; [reflexivity|]. split; [reflexivity|].
    split; [intros i Hi; lia | right; lia].
  - destruct (find_e_spec (S (Z.to_nat (2 * h))) 3 (2 * h) (h - 2))
      as (j & Hj & Hret & Hg & Hmin); try lia.
    { replace (3 + 2 * (h - 2)) with (2 * h - 1) by lia. apply gcd_pred_self. }
    exists j. split; [lia|]. split; [exact Hret|]. split; [exact Hg|].
    split; [exact Hmin|]. left; lia.
Qed.

Lemma not_both_prime_false (p q : Z) :
  Z.prime p -> Z.prime q -> not_both_prime p q = Return false.
Proof.
  intros Hp Hq. unfold not_both_prime.
  apply isPrime_true_iff in Hp, Hq. now rewrite Hp, Hq.
Qed.

(** Key derivation succeeds on every pair of distinct primes. *)
Lemma generateRSAKeyPair_primes (p q : Z) :
  Z.prime p -> Z.prime q -> p <> q ->
  let phi := (p - 1) * (q - 1) in
  exists j d,
    generateRSAKeyPair p q = Return (key_of p q (3 + 2 * j) d)
    /\ 0 <= j
    /\ Z.gcd (3 + 2 * j) phi = 1
    /\ (forall i, 0 <= i < j -> Z.gcd (3 + 2 * i) phi <> 1)
    /\ (3 + 2 * j < phi \/ (phi = 2 /\ j = 0))
    /\ 0 < d < phi
    /\ ((3 + 2 * j) * d) mod phi = 1.
Proof.
  intros Hp Hq Hne phi.
  destruct (totient_even p q Hp Hq Hne) as (h & Hh & Hphi).
  destruct (find_e_even h Hh) as (j & Hj & Hfind & Hg & Hmin & Hlt).
  destruct (modInverse_coprime (3 + 2 * j) (2 * h)) as (d & Hd & Hrange & Hinv);
    try lia; try assumption.
  exists j, d. subst phi. rewrite Hphi.
  split; [|repeat split; try lia; try assumption; intuition lia].
  unfold generateRSAKeyPair.
  rewrite (not_both_prime_false p q Hp Hq). cbn [bind].
  destruct (Z.eqb_spec p q) as [Heq|_]; [contradiction|].
  rewrite Hphi, Hfind. cbn [bind]. rewrite Hd. cbn [bind].
  unfold key_of. rewrite Hphi.
  destruct d; [lia | reflexivity | lia].
Qed.

(** A returned key pair comes from two distinct primes. *)
Lemma generateRSAKeyPair_inv (p q : Z) (kp : RSAKeyPair) :
  generateRSAKeyPair p q = Return kp ->
  Z.prime p /\ Z.prime q /\ p <> q.
Proof.
  unfold generateRSAKeyPair, not_both_prime. intros H.
  destruct (isPrime_correct p) as (bp & Hbp & Hp).
  destruct (isPrime_correct q) as (bq & Hbq & Hq).
  rewrite Hbp in H. cbn [bind] in H.
  destruct bp; cbn [negb bind] in H; [|discriminate].
  rewrite Hbq in H. cbn [bind] in H.
  destruct bq; cbn [negb bind] in H; [|discriminate].
  destruct (Z.eqb_spec p q) as [Heq|Hne]; [discriminate|].
  split; [now apply Hp|]. split; [now apply Hq | exact Hne].
Qed.

(** ** Correctness of textbook RSA *)

Lemma cong_divide (a b n : Z) :
  0 < n -> (a mod n = b mod n <-> (n | a - b)).
Proof.
  intros Hn. split.
  - intros H. apply Z.mod_divide; [lia|].
    rewrite Zminus_mod, H, Z.sub_diag. apply Z.mod_0_l; lia.
  - intros [c Hc]. replace a with (b + c * n) by lia.
    apply Z.mod_add; lia.
Qed.

(** Fermat's little theorem, in the form the cipher uses. *)
Lemma pow_totient_prime (p m k : Z) :
  Z.prime p -> 0 <= k -> m ^ (1 + k * (p - 1)) mod p = m mod p.
Proof.
  intros Hp Hk. pose proof (Z.prime_ge_2 p Hp) as Hp2.
  destruct (Z.eq_dec (m mod p) 0) as [Hz|Hnz].
  - rewrite <- Z.mod_pow_l, Hz, Z.pow_0_l by nia. apply Z.mod_0_l; lia.
  - rewrite Z.pow_add_r, Z.pow_1_r, (Z.mul_comm k), Z.pow_mul_r by nia.
    rewrite <- Z.mul_mod_idemp_r, <- Z.mod_pow_l by lia.
    rewrite (Z.fermat_nz p m Hp Hnz), Z.pow_1_l by lia.
    rewrite Z.mod_1_l by lia. now rewrite Z.mul_1_r.
Qed.

Section TextbookRsa.

Variables p q : Z.
Hypothesis p_prime : Z.prime p.
Hypothesis q_prime : Z.prime q.
Hypothesis p_neq_q : p <> q.

Variables e d : Z.
Hypothesis e_pos : 0 < e.
Hypothesis d_pos : 0 < d.
Hypothesis ed_inverse : (e * d) mod ((p - 1) * (q - 1)) = 1.

Lemma distinct_primes_coprime : Z.gcd p q = 1.
Proof.
  destruct p_prime as [Hp Hpd]. destruct q_prime as [Hq Hqd].
  pose proof (Z.gcd_nonneg p q) as Hg0.
  pose proof (Z.gcd_divide_l p q) as Hgp.
  pose proof (Z.gcd_divide_r p q) as Hgq.
  assert (Hgp' : Z.gcd p q <= p) by (apply Z.divide_pos_le; [lia | exact Hgp]).
  assert (Hgq' : Z.gcd p q <= q) by (apply Z.divide_pos_le; [lia | exact Hgq]).
  destruct (Z.eq_dec (Z.gcd p q) 0) as [Hz|Hnz].
  { apply Z.gcd_eq_0_l in Hz. lia. }
  destruct (Z.eq_dec (Z.gcd p q) 1) as [H1|Hn1]; [exact H1|].
  exfalso.
  destruct (Z.eq_dec (Z.gcd p q) p) as [Hep|Hnp].
  - destruct (Z.eq_dec (Z.gcd p q) q) as [Heq|Hnq]; [lia|].
    apply (Hqd (Z.gcd p q)); [lia | exact Hgq].
  - apply (Hpd (Z.gcd p q)); [lia | exact Hgp].
Qed.

(** [m^(e*d) = m] modulo [p*q], for every [m]: modulo each prime by
    Fermat, then modulo the product because the primes are coprime. *)
Theorem rsa_correct (m : Z) : m ^ (e * d) mod (p * q) = m mod (p * q).
Proof.
  pose proof (Z.prime_ge_2 p p_prime) as Hp2.
  pose proof (Z.prime_ge_2 q q_prime) as Hq2.
  pose proof ed_inverse as Hinv.
  set (t := (p - 1) * (q - 1)) in *.
  assert (Ht : 0 < t) by (subst t; nia).
  pose proof (Z.div_mod (e * d) t ltac:(lia)) as Hdm. rewrite Hinv in Hdm.
  assert (Hk : 0 <= e * d / t) by (apply Z.div_pos; nia).
  set (k := e * d / t) in *.
  assert (Hmp : m ^ (e * d) mod p = m mod p).
  { replace (e * d) with (1 + (k * (q - 1)) * (p - 1)) by (subst t; lia).
    apply pow_totient_prime; [exact p_prime | nia]. }
  assert (Hmq : m ^ (e * d) mod q = m mod q).
  { replace (e * d) with (1 + (k * (p - 1)) * (q - 1)) by (subst t; lia).
    apply pow_totient_prime; [exact q_prime | nia]. }
  apply cong_divide in Hmp; [|lia]. apply cong_divide in Hmq; [|lia].
  apply cong_divide; [nia|].
  destruct Hmp as [c Hc]. rewrite Hc in Hmq |- *.
  rewrite (Z.mul_comm p q). apply Z.mul_divide_mono_r.
  apply Z.gauss with (m := p); [rewrite Z.mul_comm; exact Hmq|].
  rewrite Z.gcd_comm. exact distinct_primes_coprime.
Qed.

(** Encrypting then decrypting one code below the modulus. *)
Lemma unit_roundtrip (u : Z) :
  0 <= u < p * q -> (u ^ e mod (p * q)) ^ d mod (p * q) = u.
Proof.
  intros Hu.
  rewrite Z.mod_pow_l, <- Z.pow_mul_r by lia.
  rewrite rsa_correct. apply Z.mod_small. exact Hu.
Qed.

End TextbookRsa.

(** ** Sequencing over arrays *)

Section MapM.

Context {A B : Type}.

Lemma mapM_Forall2 (f : A -> outcome B) (l : list A) (bs : list B) :
  mapM f l = Return bs <-> Forall2 (fun a b => f a = Return b) l bs.
Proof.
  revert bs. induction l as [|a l IH]; intros bs; cbn [mapM].
  - split.
    + intros H. injection H as <-. constructor.
    + intros H. inversion H. reflexivity.
  - split.
    + destruct (f a) as [b| |] eqn:Hfa; cbn [bind]; try discriminate.
      destruct (mapM f l) as [bs'| |]; cbn [bind]; try discriminate.
      intros H. injection H as <-. constructor; [exact Hfa|].
      now apply IH.
    + intros H. inversion H as [|a' b l' bs' Hab Hrest]; subst.
      rewrite Hab. cbn [bind].
      apply IH in Hrest. rewrite Hrest. reflexivity.
Qed.

Lemma mapM_total (f : A -> outcome B) (l : list A) :
  (forall a, In a l -> exists b, f a = Return b) ->
  exists bs, mapM f l = Return bs.
Proof.
  induction l as [|a l IH]; intros Hf; cbn [mapM].
  - now exists [].
  - destruct (Hf a (or_introl eq_refl)) as [b Hb].
    destruct IH as [bs Hbs]; [intros x Hx; apply Hf; now right|].
    exists (b :: bs). now rewrite Hb, Hbs.
Qed.

Lemma mapM_pure (f : A -> outcome B) (g : A -> B) (l : list A) :
  (forall a, In a l -> f a = Return (g a)) ->
  mapM f l = Return (map g l).
Proof.
  intros Hf. apply mapM_Forall2.
  induction l as [|a l IH]; cbn [map]; constructor.
  - apply Hf. now left.
  - apply IH. intros x Hx. apply Hf. now right.
Qed.

Lemma mapM_length (f : A -> outcome B) (l : list A) (bs : list B) :
  mapM f l = Return bs -> length bs = length l.
Proof.
  intros H. apply mapM_Forall2 in H. symmetry.
  eapply Forall2_length; eassumption.
Qed.

End MapM.

Lemma mapM_map {A B C : Type} (f : B -> outcome C) (h : A -> B) (l : list A) :
mapM f (map h l) = mapM (fun a => f (h a)) l.
Proof.
induction l as [|a l IH]; cbn [map mapM]; [reflexivity|].
now rewrite IH.
Qed.

(** Post-processing each result commutes with the traversal. *)
Lemma mapM_post {A B C : Type} (f : A -> outcome B) (g : B -> C) (l : list A) :
mapM (fun a => r <- f a ;; Return (g r)) l
= (rs <- mapM f l ;; Return (map g rs)).
Proof.
induction l as [|a l IH]; cbn [mapM bind map]; [reflexivity|].
rewrite IH.
destruct (f a) as [b| |]; cbn [bind]; try reflexivity.
destruct (mapM f l) as [bs| |]; reflexivity.
Qed.

(** ** Strings *)

(** A string without high surrogates is iterated unit by unit. *)
Lemma Array_from_units (s : js_string) :
  Forall (fun u => is_high_surrogate u = false) s ->
  Array_from s = map singleton s.
Proof.
  induction 1 as [|u rest Hu Hrest IH]; [reflexivity|].
  cbn [Array_from map]. rewrite Hu. cbn [andb].
  destruct rest as [|v rest']; [reflexivity|].
  now rewrite IH.
Qed.

Lemma Array_from_cons2 (u v : Z) (t : js_string) :
  Array_from (u :: v :: t)
  = if is_high_surrogate u && is_low_surrogate v
    then [u; v] :: Array_from t
    else [u] :: Array_from (v :: t).
Proof. reflexivity. Qed.

(** Every element produced by [Array.from] has a first unit. *)
Lemma Array_from_nonempty (s : js_string) :
  Forall (fun char => char <> []) (Array_from s).
Proof.
  assert (H : forall k s, (length s <= k)%nat ->
                          Forall (fun char : js_string => char <> []) (Array_from s)).
  { intros k. induction k as [|k IH]; intros s' Hlen.
    - destruct s'; [constructor | cbn [length] in Hlen; lia].
    - destruct s' as [|u [|v t]].
      + constructor.
      + constructor; [discriminate | constructor].
      + rewrite Array_from_cons2. cbn [length] in Hlen.
        destruct (is_high_surrogate u && is_low_surrogate v);
          (constructor; [discriminate|]); apply IH; cbn [length]; lia. }
  now apply (H (length s)).
Qed.

Lemma join_fromCharCode (rs : list Z) :
  join (map String_fromCharCode rs) = map (fun r => r mod 65536) rs.
Proof.
  unfold join. induction rs as [|r rs IH]; cbn; [reflexivity|].
  f_equal. exact IH.
Qed.

(** ** Message codec *)

Lemma decryptMessage_eq (ciphertext : list Z) (k : PrivateKey.t) :
  decryptMessage ciphertext k
  = (rs <- mapM (fun c => modPow c (PrivateKey.d k) (PrivateKey.n k)) ciphertext ;;
     Return (map (fun r => r mod 65536) rs)).
Proof.
  unfold decryptMessage. rewrite mapM_post.
  destruct (mapM _ ciphertext) as [rs| |]; cbn [bind]; try reflexivity.
  now rewrite join_fromCharCode.
Qed.

(** Decryption performs no validation and returns on every array. *)
Lemma decryptMessage_total (ciphertext : list Z) (k : PrivateKey.t) :
  exists rs,
    mapM (fun c => modPow c (PrivateKey.d k) (PrivateKey.n k)) ciphertext
    = Return rs
    /\ decryptMessage ciphertext k = Return (map (fun r => r mod 65536) rs).
Proof.
  destruct (mapM_total (fun c => modPow c (PrivateKey.d k) (PrivateKey.n k))
                       ciphertext) as [rs Hrs].
  { intros c _. apply modPow_total. }
  exists rs. split; [exact Hrs|].
  now rewrite decryptMessage_eq, Hrs.
Qed.


Lemma getEncryptionSteps_total (message : js_string) (pk : PublicKey.t) :
  exists steps, getEncryptionSteps message pk = Return steps.
Proof.
  apply mapM_total. intros char _. cbv beta zeta.
  destruct (modPow_total (charCodeAt0 char) (PublicKey.e pk) (PublicKey.n pk))
    as [r Hr].
  rewrite Hr. cbn [bind]. eauto.
Qed.

(** ** Further facts used by the statements below *)

Lemma prime_2 : Z.prime 2.
Proof. now apply isPrime_true_iff. Qed.

Lemma prime_3 : Z.prime 3.
Proof. now apply isPrime_true_iff. Qed.

Lemma keys_359_373 : generateRSAKeyPair 359 373 = Return kp_359_373.
Proof. vm_compute. reflexivity. Qed.

Lemma modPow_range (base exp modulus r : Z) :
  0 <= base -> 0 < modulus -> (1 < modulus \/ 0 < exp) ->
  modPow base exp modulus = Return r -> 0 <= r < modulus.
Proof.
  intros Hb Hm Hdom H. rewrite modPow_spec in H by lia.
  injection H as <-.
  destruct (Z.ltb_spec 0 exp); [apply Z.mod_pos_bound; lia | lia].
Qed.


Lemma Array_from_length (s : js_string) :
  (length (Array_from s) <= length s)%nat.
Proof.
  assert (H : forall k s', (length s' <= k)%nat ->
                           (length (Array_from s') <= length s')%nat).
  { intros k. induction k as [|k IH]; intros s' Hlen.
    - destruct s'; [cbn; lia | cbn [length] in Hlen; lia].
    - destruct s' as [|u [|v t]]; [cbn; lia | cbn; lia |].
      rewrite Array_from_cons2. cbn [length] in Hlen.
      destruct (is_high_surrogate u && is_low_surrogate v); cbn [length].
      + specialize (IH t ltac:(lia)). lia.
      + specialize (IH (v :: t) ltac:(cbn [length]; lia)).
        cbn [length] in IH. lia. }
  now apply (H (length s)).
Qed.

Lemma no_divisor_from_odd (n : Z) :
  no_divisor_from n 3
  <-> forall j, 3 <= j <= Z.sqrt n -> Z.odd j = true -> ~ (j | n).
Proof.
  split.
  - intros Hnd j Hj Hodd Hdiv.
    apply Z.odd_spec in Hodd. destruct Hodd as [m Hm].
    apply (Hnd (m - 1)); [lia | lia |].
    replace (3 + 2 * (m - 1)) with j by lia.
    apply Z.rem_divide; [lia | exact Hdiv].
  - intros Hodd k Hk Hle Hz.
    apply (Hodd (3 + 2 * k)); [lia | |].
    + apply Z.odd_spec. exists (k + 1). lia.
    + apply Z.rem_divide; [lia | exact Hz].
Qed.

Lemma generateRSAKeyPair_invalid (p q : Z) :
  ~ (isPrime p = Return true /\ isPrime q = Return true) ->
  generateRSAKeyPair p q = Throw InvalidPrime.
Proof.
  intros Hnot. unfold generateRSAKeyPair, not_both_prime.
  destruct (isPrime_total p) as [bp Hbp]. rewrite Hbp. cbn [bind].
  destruct bp; cbn [negb bind]; [|reflexivity].
  destruct (isPrime_total q) as [bq Hbq]. rewrite Hbq. cbn [bind].
  destruct bq; cbn [negb bind]; [|reflexivity].
  exfalso. apply Hnot. now split.
Qed.

Lemma generateRSAKeyPair_duplicate (p q : Z) :
  isPrime p = Return true -> isPrime q = Return true -> p = q ->
  generateRSAKeyPair p q = Throw DuplicatePrime.
Proof.
  intros Hp Hq Heq. unfold generateRSAKeyPair, not_both_prime.
  rewrite Hp. cbn [bind negb]. rewrite Hq. cbn [bind negb].
  destruct (Z.eqb_spec p q); [reflexivity | contradiction].
Qed.

(** No call ends with the exponent error: the source never raises it. *)
Lemma generateRSAKeyPair_no_exponent_error (p q : Z) :
  generateRSAKeyPair p q <> Throw NoValidExponent.
Proof.
  destruct (isPrime_correct p) as (bp & Hbp & Hp).
  destruct (isPrime_correct q) as (bq & Hbq & Hq).
  destruct bp, bq;
    try (rewrite generateRSAKeyPair_invalid; [discriminate|];
         rewrite Hbp, Hbq; intros [H1 H2]; discriminate).
  destruct (Z.eq_dec p q) as [Heq|Hne].
  - rewrite generateRSAKeyPair_duplicate by assumption. discriminate.
  - destruct (generateRSAKeyPair_primes p q) as (j & d & Hkp & _);
      [now apply Hp | now apply Hq | exact Hne |].
    rewrite Hkp. discriminate.
Qed.


Lemma rem2_even (n : Z) : 0 <= n -> (Z.rem n 2 =? 0) = Z.even n.
Proof. intros Hn. rewrite Z.rem_mod_nonneg by lia. symmetry. apply Zeven_mod. Qed.

(** ** The properties of the specification *)

(** C1, as stated, fails: a string holding a surrogate pair does not
    survive the round trip, although its code units (and its code point)
    are below the modulus. [Array.from] yields the pair as one element
    and [charCodeAt(0)] keeps its first unit only. *)
Lemma roundtrip_fails_on_surrogate_pair :
  ~ (forall p q kp text,
        generateRSAKeyPair p q = Return kp ->
        well_formed text ->
        Forall (fun u => u < PublicKey.n (publicKey kp)) text ->
        exists c, encryptMessage text (publicKey kp) = Return c
                  /\ decryptMessage c (privateKey kp) = Return text).
Proof.
  intros H.
  destruct (H 359 373 kp_359_373 grinning_face keys_359_373)
    as (c & Hc & Hd).
  - repeat constructor; lia.
  - repeat constructor.
  - vm_compute in Hc. injection Hc as <-.
    vm_compute in Hd. discriminate.
Qed.

(** C1 (amended): for every key pair returned by [generateRSAKeyPair]
    whose modulus satisfies [(n - 1)^2 < 2^53] (every product of the key
    derivation and of [modPow] is then exact) and every string whose code
    units are all below [n] and which [Array.from] splits unit by unit
    (no surrogate pair), decrypting the encryption of the string returns
    exactly the string. *)
Theorem roundtrip (p q : Z) (kp : RSAKeyPair) (text : js_string) :
  generateRSAKeyPair p q = Return kp ->
  (PublicKey.n (publicKey kp) - 1) ^ 2 < 2 ^ 53 ->
  well_formed text ->
  Forall (fun u => u < PublicKey.n (publicKey kp)) text ->
  Array_from text = map singleton text ->
  exists c, encryptMessage text (publicKey kp) = Return c
            /\ decryptMessage c (privateKey kp) = Return text.
Proof.
  intros Hgen _ Hwf Hlt Hunits. unfold well_formed in Hwf.
  rewrite Forall_forall in Hwf, Hlt.
  destruct (generateRSAKeyPair_inv p q kp Hgen) as (Hp & Hq & Hne).
  destruct (generateRSAKeyPair_primes p q Hp Hq Hne)
    as (j & d & Hkp & Hj & Hg & _ & _ & Hd & Hinv).
  assert (He : 0 < 3 + 2 * j) by lia.
  remember (3 + 2 * j) as e eqn:Ee. clear Ee Hj j.
  assert (Ekp : kp = key_of p q e d) by congruence. subst kp.
  unfold key_of in *. cbn [publicKey privateKey PublicKey.n] in *.
  pose proof (Z.prime_ge_2 p Hp). pose proof (Z.prime_ge_2 q Hq).
  assert (Hn : 0 < p * q) by nia.
  exists (map (fun u => u ^ e mod (p * q)) text). split.
  - unfold encryptMessage. cbn [PublicKey.e PublicKey.n].
    rewrite Hunits, mapM_map. apply mapM_pure.
    intros u Hu. unfold singleton, charCodeAt0.
    specialize (Hwf u Hu).
    rewrite modPow_spec by lia.
    destruct (Z.ltb_spec 0 e); [reflexivity | lia].
  - rewrite decryptMessage_eq. cbn [PrivateKey.d PrivateKey.n].
    rewrite mapM_map.
    rewrite (mapM_pure _ (fun u => u)).
    + cbn [bind]. rewrite map_id. apply f_equal.
      transitivity (map (fun u : Z => u) text); [|apply map_id].
      apply map_ext_in. intros u Hu. apply Z.mod_small. now apply Hwf.
    + intros u Hu.
      specialize (Hwf u Hu). specialize (Hlt u Hu).
      pose proof (Z.mod_pos_bound (u ^ e) (p * q) Hn).
      rewrite modPow_spec by lia.
      destruct (Z.ltb_spec 0 d); [|lia].
      rewrite unit_roundtrip; try assumption; try lia.
      reflexivity.
Qed.

Lemma roundtrip_witness :
  generateRSAKeyPair 11 13 = Return kp_11_13
  /\ (PublicKey.n (publicKey kp_11_13) - 1) ^ 2 < 2 ^ 53
  /\ exists c, encryptMessage [72; 73] (publicKey kp_11_13) = Return c
               /\ decryptMessage c (privateKey kp_11_13) = Return [72; 73].
Proof.
  split; [reflexivity|]. split; [reflexivity|].
  apply (roundtrip 11 13 kp_11_13 [72; 73]).
  - reflexivity.
  - reflexivity.
  - repeat constructor; lia.
  - repeat constructor.
  - reflexivity.
Defined.

(** C2, as stated, fails: for the primes 2 and 3 the totient is 2 and the
    exponent found is 3, so [e < phi] does not hold. *)
Lemma exponent_not_below_totient :
  ~ (forall p q kp,
        Z.prime p -> Z.prime q -> p <> q ->
        generateRSAKeyPair p q = Return kp ->
        0 < PublicKey.e (publicKey kp) < phi kp).
Proof.
  intros H.
  specialize (H 2 3 _ prime_2 prime_3 ltac:(discriminate) eq_refl).
  cbn in H. lia.
Qed.

(** C2 (amended): a key pair returned by [generateRSAKeyPair p q] with
    [p * q < 2^53] has [0 < e], [gcd(e, phi) = 1], [d * e = 1 (mod phi)],
    [0 < d < phi], [n = p * q] and [phi = (p-1) * (q-1)]; moreover
    [e < phi], except for the primes 2 and 3, where [phi = 2] and
    [e = 3]. *)
Theorem key_invariants (p q : Z) (kp : RSAKeyPair) :
  generateRSAKeyPair p q = Return kp ->
  p * q < 2 ^ 53 ->
  0 < PublicKey.e (publicKey kp)
  /\ (PublicKey.e (publicKey kp) < phi kp
      \/ (phi kp = 2 /\ PublicKey.e (publicKey kp) = 3))
  /\ Z.gcd (PublicKey.e (publicKey kp)) (phi kp) = 1
  /\ gcd (PublicKey.e (publicKey kp)) (phi kp) = Return 1
  /\ (PrivateKey.d (privateKey kp) * PublicKey.e (publicKey kp)) mod phi kp = 1
  /\ 0 < PrivateKey.d (privateKey kp) < phi kp
  /\ PublicKey.n (publicKey kp) = p * q
  /\ PrivateKey.n (privateKey kp) = p * q
  /\ phi kp = (p - 1) * (q - 1).
Proof.
  intros Hgen _.
  destruct (generateRSAKeyPair_inv p q kp Hgen) as (Hp & Hq & Hne).
  destruct (generateRSAKeyPair_primes p q Hp Hq Hne)
    as (j & d & Hkp & Hj & Hg & _ & Hlt & Hd & Hinv).
  assert (Ekp : kp = key_of p q (3 + 2 * j) d) by congruence. subst kp.
  clear Hgen Hkp.
  assert (He : 0 < 3 + 2 * j) by lia.
  assert (He' : 3 + 2 * j < (p - 1) * (q - 1)
                \/ ((p - 1) * (q - 1) = 2 /\ 3 + 2 * j = 3)) by lia.
  revert He He' Hg Hinv. generalize (3 + 2 * j) as e. intros e He He' Hg Hinv.
  unfold key_of. cbn [publicKey privateKey phi PublicKey.e PublicKey.n
                      PrivateKey.d PrivateKey.n].
  split; [exact He|]. split; [exact He'|]. split; [exact Hg|].
  split; [rewrite gcd_nonneg by lia; now rewrite Hg|].
  split; [now rewrite Z.mul_comm|].
  split; [exact Hd|]. repeat split.
Qed.

Lemma key_invariants_witness :
  generateRSAKeyPair 11 13 = Return kp_11_13
  /\ 11 * 13 < 2 ^ 53
  /\ 0 < 7 /\ (7 < 120 \/ (120 = 2 /\ 7 = 3))
  /\ Z.gcd 7 120 = 1 /\ gcd 7 120 = Return 1
  /\ (103 * 7) mod 120 = 1 /\ 0 < 103 < 120
  /\ 143 = 11 * 13 /\ 143 = 11 * 13 /\ 120 = (11 - 1) * (13 - 1).
Proof.
  split; [reflexivity|]. split; [reflexivity|].
  apply (key_invariants 11 13 kp_11_13); reflexivity.
Defined.

(** C3, as stated, fails: for the primes 2 and 3 no candidate [e < phi]
    exists ([phi = 2]), and the call returns a key pair instead of
    failing with [NoValidExponent]. *)
Lemma no_exponent_error :
  ~ (forall p q,
        Z.prime p -> Z.prime q -> p <> q ->
        (forall e, 3 <= e < (p - 1) * (q - 1) -> Z.odd e = true ->
                   Z.gcd e ((p - 1) * (q - 1)) <> 1) ->
        generateRSAKeyPair p q = Throw NoValidExponent).
Proof.
  intros H.
  specialize (H 2 3 prime_2 prime_3 ltac:(discriminate)).
  cbn in H. discriminate H. intros e He; lia.
Qed.

(** C3 (amended): on distinct primes with [(p * q - 1)^2 < 2^53]
    (every product of the derivation is then exact)
    [generateRSAKeyPair] returns a key pair whose [e] is the first of 3,
    5, 7, ... coprime to [phi]; the search has no upper bound, so either
    [e < phi], or [phi = 2] and [e = 3]; and no call, on any input, fails
    with [NoValidExponent]. *)
Theorem exponent_search :
  (forall p q,
      Z.prime p -> Z.prime q -> p <> q -> (p * q - 1) ^ 2 < 2 ^ 53 ->
      exists kp j,
        generateRSAKeyPair p q = Return kp
        /\ 0 <= j
        /\ PublicKey.e (publicKey kp) = 3 + 2 * j
        /\ Z.gcd (3 + 2 * j) (phi kp) = 1
        /\ (forall i, 0 <= i < j -> Z.gcd (3 + 2 * i) (phi kp) <> 1)
        /\ (3 + 2 * j < phi kp \/ (phi kp = 2 /\ j = 0)))
  /\ (forall p q, generateRSAKeyPair p q <> Throw NoValidExponent).
Proof.
  split; [|exact generateRSAKeyPair_no_exponent_error].
  intros p q Hp Hq Hne _.
  destruct (generateRSAKeyPair_primes p q Hp Hq Hne)
    as (j & d & Hkp & Hj & Hg & Hmin & Hlt & _ & _).
  exists (key_of p q (3 + 2 * j) d), j.
  split; [exact Hkp|]. split; [exact Hj|]. split; [reflexivity|].
  split; [exact Hg|]. split; [exact Hmin | exact Hlt].
Qed.

Lemma exponent_search_witness :
  (2 * 3 - 1) ^ 2 < 2 ^ 53
  /\ (exists kp j,
      generateRSAKeyPair 2 3 = Return kp
      /\ 0 <= j
      /\ PublicKey.e (publicKey kp) = 3 + 2 * j
      /\ Z.gcd (3 + 2 * j) (phi kp) = 1
      /\ (forall i, 0 <= i < j -> Z.gcd (3 + 2 * i) (phi kp) <> 1)
      /\ (3 + 2 * j < phi kp \/ (phi kp = 2 /\ j = 0)))
  /\ generateRSAKeyPair 2 3 <> Throw NoValidExponent.
Proof.
  destruct exponent_search as [Hsearch Hnever].
  split; [reflexivity|]. split; [|apply Hnever].
  apply (Hsearch 2 3).
  - apply isPrime_true_iff. reflexivity.
  - apply isPrime_true_iff. reflexivity.
  - discriminate.
  - reflexivity.
Defined.

(** C4, as stated, fails twice: a negative base gives a negative result
    ([%] keeps the sign of the dividend), and with modulus 1 and exponent 0
    the result is 1, which is neither below the modulus nor [1 mod 1]. *)
Lemma modPow_out_of_range :
  ~ (forall base exp modulus,
        0 < modulus ->
        exists r, modPow base exp modulus = Return r /\ 0 <= r < modulus)
  /\ modPow (-2) 1 5 = Return (-2)
  /\ modPow 2 0 1 = Return 1.
Proof.
  split; [|split; reflexivity].
  intros H. destruct (H 2 0 1 ltac:(lia)) as (r & Hr & Hrange).
  cbn in Hr. injection Hr as <-. lia.
Qed.

(** C4 (amended): for a base [>= 0] and a modulus [> 0] with
    [(mod - 1)^2 < 2^53], and with the modulus [> 1] or the exponent
    [> 0], [modPow] returns [r] with [0 <= r < mod]; [r] is
    [base^exp mod mod] for a positive exponent and 1 for an exponent
    [<= 0] (so [1 mod mod] at exponent 0). The base is reduced before the
    loop starts: the loop is entered with [result = 1] and
    [base mod mod], at every evaluation of its condition [base] lies in
    [0, mod) and the products [result * base] and [base * base] are
    below 2^53, and the [result] of the last state is the value
    returned. *)
Theorem modPow_correct (base exp modulus : Z) :
  0 <= base -> 0 < modulus -> (modulus - 1) ^ 2 < 2 ^ 53 ->
  (1 < modulus \/ 0 < exp) ->
  exists r,
    modPow base exp modulus = Return r
    /\ 0 <= r < modulus
    /\ (0 < exp -> r = base ^ exp mod modulus)
    /\ (exp <= 0 -> r = 1)
    /\ (exp = 0 -> r = 1 mod modulus)
    /\ (exists rest,
           modPow_states base exp modulus = (1, base mod modulus, exp) :: rest)
    /\ Forall (products_exact modulus) (modPow_states base exp modulus)
    /\ fst (fst (last (modPow_states base exp modulus) (0, 0, 0))) = r.
Proof.
  intros Hb Hm Hsq Hdom.
  pose proof (modPow_spec base exp modulus Hb Hm) as Hspec.
  pose proof (Z.mod_pos_bound base modulus Hm) as Hred.
  exists (if 0 <? exp then base ^ exp mod modulus else 1).
  split; [exact Hspec|].
  split; [eapply modPow_range; eassumption|].
  assert (Htrace :
            (exists rest,
                modPow_states base exp modulus
                = (1, base mod modulus, exp) :: rest)
            /\ Forall (products_exact modulus) (modPow_states base exp modulus)
            /\ fst (fst (last (modPow_states base exp modulus) (0, 0, 0)))
               = (if 0 <? exp then base ^ exp mod modulus else 1)).
  { split; [|split].
    - unfold modPow_states. rewrite modPow_loop_states_S.
      rewrite Z.rem_mod_nonneg by lia. eauto.
    - unfold modPow_states. rewrite Z.rem_mod_nonneg by lia.
      apply modPow_loop_states_exact; try assumption.
      destruct (Z.eq_dec modulus 1); [now right | left; lia].
    - apply modPow_loop_states_last. exact Hspec. }
  destruct (Z.ltb_spec 0 exp) as [Hpos|Hnpos].
  - split; [reflexivity|]. split; [lia|]. split; [lia|]. exact Htrace.
  - split; [lia|]. split; [reflexivity|].
    split; [intros _; symmetry; apply Z.mod_1_l; lia|]. exact Htrace.
Qed.

Lemma modPow_correct_witness :
  (143 - 1) ^ 2 < 2 ^ 53
  /\ exists r,
      modPow 72 7 143 = Return r
      /\ 0 <= r < 143
      /\ (0 < 7 -> r = 72 ^ 7 mod 143)
      /\ (7 <= 0 -> r = 1)
      /\ (7 = 0 -> r = 1 mod 143)
      /\ (exists rest, modPow_states 72 7 143 = (1, 72 mod 143, 7) :: rest)
      /\ Forall (products_exact 143) (modPow_states 72 7 143)
      /\ fst (fst (last (modPow_states 72 7 143) (0, 0, 0))) = r.
Proof.
  split; [reflexivity|].
  apply (modPow_correct 72 7 143); [lia | lia | reflexivity | lia].
Defined.

(** C5, as stated, fails: [decryptMessage] validates nothing. An array
    with a negative element is decrypted like any other, no error is
    signalled. *)
Lemma no_malformed_ciphertext_error :
  ~ (forall ciphertext k,
        0 < PrivateKey.n k ->
        (exists x, In x ciphertext /\ x < 0) ->
        decryptMessage ciphertext k = Throw MalformedCiphertext).
Proof.
  intros H.
  specialize (H [-5] {| PrivateKey.d := 103; PrivateKey.n := 143 |}
                ltac:(cbn; lia)).
  cbn in H. discriminate H. exists (-5). split; [now left | lia].
Qed.

(** C5 (amended): on every array of integers, with or without negative
    elements, and every private key with [n > 0], [decryptMessage]
    signals no error and returns a string with exactly one code unit per
    element: never [MalformedCiphertext], never a shorter prefix. *)
Theorem decryptMessage_never_fails (ciphertext : list Z) (k : PrivateKey.t) :
  0 < PrivateKey.n k ->
  exists s,
    decryptMessage ciphertext k = Return s
    /\ length s = length ciphertext
    /\ decryptMessage ciphertext k <> Throw MalformedCiphertext.
Proof.
  intros _.
  destruct (decryptMessage_total ciphertext k) as (rs & Hrs & Hs).
  exists (map (fun r => r mod 65536) rs).
  split; [exact Hs|]. split.
  - rewrite length_map. eapply mapM_length; eassumption.
  - rewrite Hs. discriminate.
Qed.

Lemma decryptMessage_never_fails_witness :
  0 < 143
  /\ exists s,
      decryptMessage [-5; 19] {| PrivateKey.d := 103; PrivateKey.n := 143 |}
      = Return s
      /\ length s = 2%nat
      /\ decryptMessage [-5; 19] {| PrivateKey.d := 103; PrivateKey.n := 143 |}
         <> Throw MalformedCiphertext.
Proof.
  split; [lia|].
  apply (decryptMessage_never_fails
           [-5; 19] {| PrivateKey.d := 103; PrivateKey.n := 143 |}).
  cbn. lia.
Defined.

(** C6: [generateRSAKeyPair] throws the "must be prime" error whenever
    [isPrime p] and [isPrime q] do not both hold, the "must be different"
    error when both are prime and [p = q], and returns a key pair only
    when both are prime and [p <> q]; so (4, 9) gives [InvalidPrime] and
    (7, 7) gives [DuplicatePrime]. *)
Theorem generateRSAKeyPair_preconditions (p q : Z) :
  (~ (isPrime p = Return true /\ isPrime q = Return true) ->
   generateRSAKeyPair p q = Throw InvalidPrime)
  /\ (isPrime p = Return true -> isPrime q = Return true -> p = q ->
      generateRSAKeyPair p q = Throw DuplicatePrime)
  /\ ((exists kp, generateRSAKeyPair p q = Return kp)
      -> (isPrime p = Return true /\ isPrime q = Return true /\ p <> q))
  /\ generateRSAKeyPair 4 9 = Throw InvalidPrime
  /\ generateRSAKeyPair 7 7 = Throw DuplicatePrime.
Proof.
  split; [exact (generateRSAKeyPair_invalid p q)|].
  split; [exact (generateRSAKeyPair_duplicate p q)|].
  split; [|split; reflexivity].
  intros [kp Hgen].
  destruct (generateRSAKeyPair_inv p q kp Hgen) as (Hp & Hq & Hne).
  split; [now apply isPrime_true_iff|].
  split; [now apply isPrime_true_iff | exact Hne].
Qed.

Lemma generateRSAKeyPair_preconditions_witness :
  generateRSAKeyPair 4 9 = Throw InvalidPrime
  /\ generateRSAKeyPair 7 7 = Throw DuplicatePrime
  /\ (isPrime 11 = Return true /\ isPrime 13 = Return true /\ 11 <> 13).
Proof.
  destruct (generateRSAKeyPair_preconditions 4 9) as (H49 & _).
  destruct (generateRSAKeyPair_preconditions 7 7) as (_ & H77 & _).
  destruct (generateRSAKeyPair_preconditions 11 13) as (_ & _ & Hret & _).
  split; [apply H49; intros [H _]; discriminate H|].
  split; [apply H77; reflexivity|].
  apply Hret. exists kp_11_13. reflexivity.
Defined.

(** C7, as stated, fails: -4 and 5 are coprime, yet the search finds no
    inverse, because [%] keeps the sign of the dividend and [(a*x) % m]
    is never 1 for a negative [a]. *)
Lemma modInverse_negative :
  ~ (forall a m,
        1 < m -> Z.gcd a m = 1 ->
        exists x, modInverse a m = Return (Some x)
                  /\ 0 < x < m /\ (a * x) mod m = 1)
  /\ modInverse (-4) 5 = Return None
  /\ gcd (-4) 5 = Return 1.
Proof.
  split; [|split; reflexivity].
  intros H. destruct (H (-4) 5 ltac:(lia) eq_refl) as (x & Hx & _).
  discriminate Hx.
Qed.

(** C7 (amended): on pairs with [|a| * m < 2^53] and [m < 2^53] (the
    products [a * x] and the counter [x] of the search are then exact):
    for [a >= 0] coprime to [m > 1], [modInverse a m] returns the unique
    [x] with [0 < x < m] and [(a*x) mod m = 1]; for every pair with
    [gcd(a, m) <> 1] it returns [null]. *)
Theorem modInverse_correct :
  (forall a m,
      0 <= a -> 1 < m -> a * m < 2 ^ 53 -> Z.gcd a m = 1 ->
      exists x, modInverse a m = Return (Some x)
                /\ 0 < x < m /\ (a * x) mod m = 1
                /\ forall y, 0 < y < m -> (a * y) mod m = 1 -> y = x)
  /\ (forall a m,
         Z.abs a * m < 2 ^ 53 -> m < 2 ^ 53 -> Z.gcd a m <> 1 ->
         modInverse a m = Return None).
Proof.
  split.
  - intros a m Ha Hm _ Hg.
    destruct (modInverse_coprime a m Ha Hm Hg) as (x & Hx & Hrange & Hinv).
    exists x. split; [exact Hx|]. split; [exact Hrange|]. split; [exact Hinv|].
    intros y Hy Hyinv. now apply (inverse_unique a m y x).
  - intros a m _ _. apply modInverse_not_coprime.
Qed.

Lemma modInverse_correct_witness :
  7 * 120 < 2 ^ 53
  /\ (exists x, modInverse 7 120 = Return (Some x)
                /\ 0 < x < 120 /\ (7 * x) mod 120 = 1
                /\ forall y, 0 < y < 120 -> (7 * y) mod 120 = 1 -> y = x)
  /\ Z.abs 6 * 120 < 2 ^ 53
  /\ 120 < 2 ^ 53
  /\ modInverse 6 120 = Return None.
Proof.
  destruct modInverse_correct as [Hsome Hnone].
  split; [reflexivity|]. split; [|split; [reflexivity|split; [reflexivity|]]].
  - apply (Hsome 7 120); [lia | lia | reflexivity | reflexivity].
  - apply (Hnone 6 120); [reflexivity | reflexivity | discriminate].
Defined.

(** C8: on every integer [n] from 0 to 10000, [isPrime n] returns a
    boolean that is true exactly when [n] is prime; it is false below 2,
    true at 2, false for an even [n > 2], and for an odd [n > 2] true
    exactly when no odd [j] with [3 <= j <= floor(sqrt n)] divides [n]. *)
Theorem isPrime_trial_division (n : Z) :
  0 <= n <= 10000 ->
  exists b,
    isPrime n = Return b
    /\ (b = true <-> Z.prime n)
    /\ (n < 2 -> b = false)
    /\ (n = 2 -> b = true)
    /\ (2 < n -> Z.even n = true -> b = false)
    /\ (2 < n -> Z.odd n = true ->
        (b = true <->
         forall j, 3 <= j <= Z.sqrt n -> Z.odd j = true -> ~ (j | n))).
Proof.
  intros Hn.
  destruct (isPrime_correct n) as (b & Hb & Hprime).
  exists b. split; [exact Hb|]. split; [exact Hprime|].
  unfold isPrime in Hb. rewrite rem2_even in Hb by lia.
  destruct (Z.ltb_spec n 2) as [Hlt|Hge].
  { injection Hb as <-. repeat split; try lia; try discriminate. }
  destruct (Z.eqb_spec n 2) as [->|Hne].
  { injection Hb as <-. repeat split; try lia; try discriminate. }
  split; [lia|]. split; [lia|].
  destruct (Z.even n) eqn:Heven.
  { injection Hb as <-. split; [reflexivity|].
    intros _ Hodd. rewrite <- Z.negb_even, Heven in Hodd. discriminate. }
  split; [discriminate|]. intros _ _.
  destruct (isPrime_loop_spec (Z.to_nat (Z.sqrt n)) n 3) as (b' & Hb' & Hiff).
  { pose proof (Z.sqrt_nonneg n). lia. }
  rewrite Hb' in Hb. injection Hb as ->.
  rewrite Hiff. apply no_divisor_from_odd.
Qed.

Lemma isPrime_trial_division_witness :
  0 <= 97 <= 10000
  /\ exists b,
      isPrime 97 = Return b
      /\ (b = true <-> Z.prime 97)
      /\ (97 < 2 -> b = false)
      /\ (97 = 2 -> b = true)
      /\ (2 < 97 -> Z.even 97 = true -> b = false)
      /\ (2 < 97 -> Z.odd 97 = true ->
          (b = true <->
           forall j, 3 <= j <= Z.sqrt 97 -> Z.odd j = true -> ~ (j | 97))).
Proof. split; [lia | apply (isPrime_trial_division 97); lia]. Defined.







(** * Further properties of the engine and of its callers *)

(** ** Euclid's algorithm on all integers *)

Lemma gcd_rem (a b : Z) : Z.gcd b (Z.rem a b) = Z.gcd a b.
Proof.
  pose proof (Z.quot_rem' a b) as H.
  replace (Z.rem a b) with (a + (- (a ÷ b)) * b) by lia.
  rewrite Z.gcd_add_mult_diag_r. apply Z.gcd_comm.
Qed.

Lemma gcd_loop_abs (fuel : nat) :
  forall a b, (Z.abs_nat b < fuel)%nat ->
              exists g, gcd_loop fuel a b = Return g /\ Z.abs g = Z.gcd a b.
Proof.
  induction fuel as [|fuel IH]; intros a b Hfuel; [lia|].
  cbn [gcd_loop]. destruct (Z.eqb_spec b 0) as [->|Hb]; cbn [negb].
  - exists a. split; [reflexivity|]. now rewrite Z.gcd_0_r.
  - destruct (IH b (Z.rem a b)) as (g & Hg & Habs).
    { pose proof (Z.rem_bound_abs a b Hb). lia. }
    exists g. split; [exact Hg|]. now rewrite Habs, gcd_rem.
Qed.

(** X1: [gcd] ends on every pair of integers; the absolute value of what
    it returns is the greatest common divisor. On non-negative arguments
    it returns the greatest common divisor itself, and [gcd(a, 0)] is [a]
    (so the sign of a negative [a] is kept). *)
Theorem gcd_all_integers (a b : Z) :
  exists g, gcd a b = Return g
            /\ Z.abs g = Z.gcd a b
            /\ (0 <= a -> 0 <= b -> g = Z.gcd a b)
            /\ (b = 0 -> g = a).
Proof.
  destruct (gcd_loop_abs (S (Z.abs_nat b)) a b ltac:(lia)) as (g & Hg & Habs).
  exists g. split; [exact Hg|]. split; [exact Habs|]. split.
  - intros Ha Hb. pose proof (gcd_nonneg a b Ha Hb) as E.
    unfold gcd in E. congruence.
  - intros ->. cbn in Hg. congruence.
Qed.

(** ** The list of primes *)

Lemma generatePrimes_loop_S (fuel : nat) (max i : Z) (primes : list Z) :
  generatePrimes_loop (S fuel) max i primes
  = if i <=? max then
      b <- isPrime i ;;
      generatePrimes_loop fuel max (i + 1) (if b then primes ++ [i] else primes)
    else Return primes.
Proof. reflexivity. Qed.

Lemma generatePrimes_loop_spec (fuel : nat) :
  forall max i primes,
    max - i + 1 < Z.of_nat (S fuel) ->
    exists l,
      generatePrimes_loop (S fuel) max i primes = Return (primes ++ l)
      /\ (forall x, In x l <-> i <= x <= max /\ Z.prime x)
      /\ StronglySorted Z.lt l.
Proof.
  induction fuel as [|fuel IH]; intros max i primes Hfuel;
    rewrite generatePrimes_loop_S;
    destruct (Z.leb_spec i max) as [Hle|Hgt];
    try (exists []; rewrite app_nil_r; split; [reflexivity|];
         split; [intros x; cbn; split; [tauto | lia] | constructor]).
  - lia.
  - destruct (isPrime_correct i) as (b & Hb & Hprime). rewrite Hb. cbn [bind].
    destruct (IH max (i + 1) (if b then primes ++ [i] else primes))
      as (l & Hl & Hmem & Hsorted); [lia|].
    destruct b.
    + exists (i :: l). rewrite Hl, <- app_assoc. split; [reflexivity|]. split.
      * intros x. cbn [In]. rewrite Hmem. split.
        -- intros [<-|[Hx Hp]]; [split; [lia | now apply Hprime] | split; [lia | exact Hp]].
        -- intros [Hx Hp]. destruct (Z.eq_dec i x); [now left | right; split; [lia | exact Hp]].
      * constructor; [exact Hsorted|].
        apply Forall_forall. intros x Hx. apply Hmem in Hx. lia.
    + exists l. split; [exact Hl|]. split; [|exact Hsorted].
      intros x. rewrite Hmem. split.
      * intros [Hx Hp]. split; [lia | exact Hp].
      * intros [Hx Hp]. split; [|exact Hp].
        destruct (Z.eq_dec i x) as [<-|]; [|lia].
        apply Hprime in Hp. discriminate.
Qed.

(** X2: for every integer [max < 2^32] (the counter is then exact and
    the array within its maximal length), [generatePrimes(max)] returns
    exactly the primes from 2 to [max], each once and in increasing
    order; the list is empty when [max < 2]. *)
Theorem generatePrimes_correct (max : Z) :
  max < 2 ^ 32 ->
  exists l,
    generatePrimes max = Return l
    /\ (forall x, In x l <-> 2 <= x <= max /\ Z.prime x)
    /\ StronglySorted Z.lt l
    /\ (max < 2 -> l = []).
Proof.
  intros _.
  destruct (generatePrimes_loop_spec (Z.to_nat max) max 2 []) as (l & Hl & Hmem & Hs).
  { lia. }
  exists l. split; [exact Hl|]. split; [exact Hmem|]. split; [exact Hs|].
  intros Hmax. destruct l as [|x l]; [reflexivity|].
  exfalso. assert (H : In x (x :: l)) by now left. apply Hmem in H. lia.
Qed.

Lemma generatePrimes_correct_witness :
  30 < 2 ^ 32
  /\ exists l,
      generatePrimes 30 = Return l
      /\ (forall x, In x l <-> 2 <= x <= 30 /\ Z.prime x)
      /\ StronglySorted Z.lt l
      /\ (30 < 2 -> l = []).
Proof. split; [reflexivity | apply (generatePrimes_correct 30); reflexivity]. Defined.

(** ** [modPow] on a base of either sign *)

Lemma rem_cong (x m : Z) : m <> 0 -> Z.rem x m mod m = x mod m.
Proof.
  intros Hm. pose proof (Z.quot_rem' x m) as H.
  replace (Z.rem x m) with (x + (- (x ÷ m)) * m) by lia.
  apply Z.mod_add. exact Hm.
Qed.

Lemma modPow_loop_cong (fuel : nat) :
  forall result base exp modulus,
    0 < modulus -> 0 < exp -> exp < 2 ^ Z.of_nat fuel ->
    exists r,
      modPow_loop (S fuel) result base exp modulus = Return r
      /\ r mod modulus = (result * base ^ exp) mod modulus
      /\ Z.abs r < modulus.
Proof.
  induction fuel as [|fuel IH]; intros result base exp modulus Hm Hpos Hfuel.
  { cbn in Hfuel. lia. }
  rewrite modPow_loop_S.
  destruct (Z.ltb_spec 0 exp) as [_|]; [|lia].
  rewrite (Z.rem_mod_nonneg exp 2) by lia.
  pose proof (Z.mod_pos_bound exp 2 ltac:(lia)) as Hbit.
  pose proof (Z.div_mod exp 2 ltac:(lia)) as Hdm.
  set (result' := if exp mod 2 =? 1 then Z.rem (result * base) modulus else result).
  assert (Hres : result' mod modulus = (result * base ^ (exp mod 2)) mod modulus).
  { subst result'. destruct (Z.eqb_spec (exp mod 2) 1) as [E|E].
    - rewrite E, Z.pow_1_r. apply rem_cong; lia.
    - replace (exp mod 2) with 0 by lia. now rewrite Z.pow_0_r, Z.mul_1_r. }
  destruct (Z_lt_le_dec 0 (exp / 2)) as [Hhalf|Hhalf].
  - destruct (IH result' (Z.rem (base * base) modulus) (exp / 2) modulus)
      as (r & Hr & Hcong & Habs); [lia | lia | now apply half_lt_pow2 |].
    exists r. split; [exact Hr|]. split; [|exact Habs].
    rewrite Hcong, (pow_half base exp Hpos).
    rewrite <- Z.mul_mod_idemp_r, <- Z.mod_pow_l, rem_cong, Z.mod_pow_l by lia.
    rewrite Z.mul_mod_idemp_r, <- Z.mul_mod_idemp_l, Hres, Z.mul_mod_idemp_l by lia.
    f_equal. ring.
  - assert (Hexp : exp = 1) by lia. subst exp.
    change (1 / 2) with 0. rewrite modPow_loop_S. cbn [Z.ltb Z.compare].
    exists result'. split; [reflexivity|]. split.
    + rewrite Hres. reflexivity.
    + subst result'. cbn. pose proof (Z.rem_bound_abs (result * base) modulus). lia.
Qed.

(** X3: for a base of either sign, a positive exponent and a positive
    modulus with [(mod - 1)^2 < 2^53], [modPow] returns a value congruent
    to [base^exp] and of absolute value below the modulus; for an
    exponent [<= 0] it returns 1 whatever the base and the modulus. *)
Theorem modPow_congruent (base exp modulus : Z) :
  0 < modulus -> (modulus - 1) ^ 2 < 2 ^ 53 ->
  exists r,
    modPow base exp modulus = Return r
    /\ (0 < exp -> r mod modulus = base ^ exp mod modulus /\ Z.abs r < modulus)
    /\ (exp <= 0 -> r = 1).
Proof.
  intros Hm _. destruct (Z_lt_le_dec 0 exp) as [Hpos|Hnpos].
  - destruct (modPow_loop_cong (S (Z.to_nat (Z.log2 exp))) 1 (Z.rem base modulus)
                               exp modulus Hm Hpos (modPow_fuel exp))
      as (r & Hr & Hcong & Habs).
    exists r. split; [exact Hr|]. split; [|lia].
    intros _. split; [|exact Habs].
    rewrite Hcong, Z.mul_1_l, <- Z.mod_pow_l, rem_cong, Z.mod_pow_l by lia.
    reflexivity.
  - exists 1. split; [now apply modPow_nonpos_exp|]. split; [lia | reflexivity].
Qed.

Lemma modPow_congruent_witness :
  0 < 5 /\ (5 - 1) ^ 2 < 2 ^ 53
  /\ exists r,
      modPow (-2) 3 5 = Return r
      /\ (0 < 3 -> r mod 5 = (-2) ^ 3 mod 5 /\ Z.abs r < 5)
      /\ (3 <= 0 -> r = 1).
Proof.
  split; [lia|]. split; [reflexivity|].
  apply (modPow_congruent (-2) 3 5); [lia | reflexivity].
Defined.

(** X4: [modInverse] on integers of either sign with [|a| * m < 2^53]
    and [m < 2^53] (the products and the counter of the search are then
    exact): the value returned is the least [x] in [1, m) passing the
    test [(a * x) % m === 1], and [null] is returned exactly when no [x]
    in [1, m) passes it (always so when [m <= 1]). *)
Theorem modInverse_least (a m : Z) :
  Z.abs a * m < 2 ^ 53 -> m < 2 ^ 53 ->
  exists r,
    modInverse a m = Return r
    /\ (forall x, r = Some x ->
                  1 <= x < m /\ Z.rem (a * x) m = 1
                  /\ forall z, 1 <= z < x -> Z.rem (a * z) m <> 1)
    /\ (r = None <-> forall z, 1 <= z < m -> Z.rem (a * z) m <> 1)
    /\ (m <= 1 -> r = None).
Proof.
  intros _ _.
  destruct (modInverse_spec a m) as [(y & Hy & Hrange & Hinv & Hmin)|[Hn Hall]].
  - exists (Some y). split; [exact Hy|]. split; [|split].
    + intros x Hx. injection Hx as <-. split; [exact Hrange|]. split; assumption.
    + split; [discriminate|]. intros Hall. exfalso. now apply (Hall y).
    + intros Hm. lia.
  - exists None. split; [exact Hn|]. split; [discriminate|].
    split; [split; [intros _; exact Hall | reflexivity] | reflexivity].
Qed.

Lemma modInverse_least_witness :
  Z.abs (-7) * 120 < 2 ^ 53 /\ 120 < 2 ^ 53
  /\ exists r,
      modInverse (-7) 120 = Return r
      /\ (forall x, r = Some x ->
                    1 <= x < 120 /\ Z.rem (-7 * x) 120 = 1
                    /\ forall z, 1 <= z < x -> Z.rem (-7 * z) 120 <> 1)
      /\ (r = None <-> forall z, 1 <= z < 120 -> Z.rem (-7 * z) 120 <> 1)
      /\ (120 <= 1 -> r = None).
Proof.
  split; [reflexivity|]. split; [reflexivity|].
  apply (modInverse_least (-7) 120); reflexivity.
Defined.

(** ** Returned key pairs *)

Lemma generateRSAKeyPair_returned (p q : Z) (kp : RSAKeyPair) :
  generateRSAKeyPair p q = Return kp ->
  exists e d,
    kp = key_of p q e d
    /\ Z.prime p /\ Z.prime q /\ p <> q
    /\ 0 < e /\ 0 < d < (p - 1) * (q - 1)
    /\ (e * d) mod ((p - 1) * (q - 1)) = 1.
Proof.
  intros Hgen.
  destruct (generateRSAKeyPair_inv p q kp Hgen) as (Hp & Hq & Hne).
  destruct (generateRSAKeyPair_primes p q Hp Hq Hne)
    as (j & d & Hkp & Hj & _ & _ & _ & Hd & Hinv).
  exists (3 + 2 * j), d.
  split; [congruence|]. repeat (split; try assumption); lia.
Qed.

(** X5: the two exponents of a returned key pair with
    [(n - 1)^2 < 2^53] undo each other on every number below the modulus,
    in both orders. *)
Theorem exponents_inverse (p q : Z) (kp : RSAKeyPair) (m : Z) :
  generateRSAKeyPair p q = Return kp ->
  (PublicKey.n (publicKey kp) - 1) ^ 2 < 2 ^ 53 ->
  0 <= m < PublicKey.n (publicKey kp) ->
  (exists c,
      calculateModular m (PublicKey.e (publicKey kp)) (PublicKey.n (publicKey kp))
      = Return c
      /\ 0 <= c < PublicKey.n (publicKey kp)
      /\ calculateModular c (PrivateKey.d (privateKey kp)) (PrivateKey.n (privateKey kp))
         = Return m)
  /\ (exists s,
         calculateModular m (PrivateKey.d (privateKey kp)) (PrivateKey.n (privateKey kp))
         = Return s
         /\ 0 <= s < PrivateKey.n (privateKey kp)
         /\ calculateModular s (PublicKey.e (publicKey kp)) (PublicKey.n (publicKey kp))
            = Return m).
Proof.
  intros Hgen _ Hm.
  destruct (generateRSAKeyPair_returned p q kp Hgen)
    as (e & d & -> & Hp & Hq & Hne & He & Hd & Hinv).
  unfold key_of in *.
  cbn [publicKey privateKey PublicKey.e PublicKey.n PrivateKey.d PrivateKey.n] in *.
  unfold calculateModular.
  assert (Hn : 0 < p * q) by lia.
  assert (Hinv' : (d * e) mod ((p - 1) * (q - 1)) = 1) by now rewrite Z.mul_comm.
  split.
  - exists (m ^ e mod (p * q)).
    pose proof (Z.mod_pos_bound (m ^ e) (p * q) Hn).
    rewrite !modPow_spec by lia.
    destruct (Z.ltb_spec 0 e); [|lia]. destruct (Z.ltb_spec 0 d); [|lia].
    split; [reflexivity|]. split; [lia|].
    now rewrite (unit_roundtrip p q Hp Hq Hne e d He ltac:(lia) Hinv m Hm).
  - exists (m ^ d mod (p * q)).
    pose proof (Z.mod_pos_bound (m ^ d) (p * q) Hn).
    rewrite !modPow_spec by lia.
    destruct (Z.ltb_spec 0 e); [|lia]. destruct (Z.ltb_spec 0 d); [|lia].
    split; [reflexivity|]. split; [lia|].
    now rewrite (unit_roundtrip p q Hp Hq Hne d e ltac:(lia) He Hinv' m Hm).
Qed.

Lemma exponents_inverse_witness :
  generateRSAKeyPair 11 13 = Return kp_11_13
  /\ (143 - 1) ^ 2 < 2 ^ 53
  /\ 0 <= 72 < 143
  /\ (exists c, calculateModular 72 7 143 = Return c
                /\ 0 <= c < 143 /\ calculateModular c 103 143 = Return 72)
  /\ (exists s, calculateModular 72 103 143 = Return s
                /\ 0 <= s < 143 /\ calculateModular s 7 143 = Return 72).
Proof.
  split; [reflexivity|]. split; [reflexivity|]. split; [lia|].
  apply (exponents_inverse 11 13 kp_11_13 72);
    [reflexivity | reflexivity | cbn; lia].
Defined.

(** X6: on every pair of integers with [(p * q - 1)^2 < 2^53] key
    derivation ends, and its defensive failure 'Could not generate valid
    private key' does not occur: the only errors are the two
    precondition errors. *)
Theorem generateRSAKeyPair_outcomes (p q : Z) :
  (p * q - 1) ^ 2 < 2 ^ 53 ->
  (generateRSAKeyPair p q = Throw InvalidPrime
   \/ generateRSAKeyPair p q = Throw DuplicatePrime
   \/ exists kp, generateRSAKeyPair p q = Return kp)
  /\ generateRSAKeyPair p q <> Throw KeyDerivationFailed
  /\ generateRSAKeyPair p q <> OutOfFuel.
Proof.
  intros _.
  assert (H : generateRSAKeyPair p q = Throw InvalidPrime
              \/ generateRSAKeyPair p q = Throw DuplicatePrime
              \/ exists kp, generateRSAKeyPair p q = Return kp).
  { destruct (isPrime_correct p) as (bp & Hbp & Hp).
    destruct (isPrime_correct q) as (bq & Hbq & Hq).
    destruct bp, bq;
      try (left; apply generateRSAKeyPair_invalid;
           rewrite Hbp, Hbq; intros [H1 H2]; discriminate).
    destruct (Z.eq_dec p q) as [Heq|Hne].
    - right; left. now apply generateRSAKeyPair_duplicate.
    - right; right.
      destruct (generateRSAKeyPair_primes p q) as (j & d & Hkp & _);
        [now apply Hp | now apply Hq | exact Hne |].
      eauto. }
  split; [exact H|].
  destruct H as [E|[E|[kp E]]]; rewrite E; split; discriminate.
Qed.

Lemma generateRSAKeyPair_outcomes_witness :
  (11 * 13 - 1) ^ 2 < 2 ^ 53
  /\ (generateRSAKeyPair 11 13 = Throw InvalidPrime
      \/ generateRSAKeyPair 11 13 = Throw DuplicatePrime
      \/ exists kp, generateRSAKeyPair 11 13 = Return kp)
  /\ generateRSAKeyPair 11 13 <> Throw KeyDerivationFailed
  /\ generateRSAKeyPair 11 13 <> OutOfFuel.
Proof.
  split; [reflexivity | apply (generateRSAKeyPair_outcomes 11 13); reflexivity].
Defined.

(** X7: the order of the two primes does not matter: swapping them gives
    the same public key, private key and totient. *)
Theorem generateRSAKeyPair_swap (p q : Z) (kp : RSAKeyPair) :
  generateRSAKeyPair p q = Return kp ->
  generateRSAKeyPair q p
  = Return {| publicKey := publicKey kp; privateKey := privateKey kp;
              p := q; q := p; phi := phi kp |}.
Proof.
  intros Hgen.
  destruct (generateRSAKeyPair_inv p q kp Hgen) as (Hp & Hq & Hne).
  unfold generateRSAKeyPair in *.
  rewrite (not_both_prime_false p q Hp Hq) in Hgen.
  rewrite (not_both_prime_false q p Hq Hp).
  cbn [bind] in *.
  destruct (Z.eqb_spec p q) as [|_]; [contradiction|].
  destruct (Z.eqb_spec q p) as [|_]; [congruence|].
  rewrite (Z.mul_comm (q - 1) (p - 1)), (Z.mul_comm q p).
  destruct (find_e _ 3 _) as [e| |]; cbn [bind] in *; try discriminate.
  destruct (modInverse e _) as [[d|]| |]; cbn [bind] in *; try discriminate.
  destruct d; try discriminate; injection Hgen as <-; reflexivity.
Qed.

Lemma generateRSAKeyPair_swap_witness :
  generateRSAKeyPair 11 13 = Return kp_11_13
  /\ generateRSAKeyPair 13 11
     = Return {| publicKey := publicKey kp_11_13; privateKey := privateKey kp_11_13;
                 p := 13; q := 11; phi := phi kp_11_13 |}.
Proof.
  split; [reflexivity|]. apply (generateRSAKeyPair_swap 11 13 kp_11_13). reflexivity.
Defined.

(** ** Iteration by code points *)

(** Induction following the two ways [Array.from] consumes a string. *)
Lemma Array_from_ind (P : js_string -> list js_string -> Prop) :
  P [] [] ->
  (forall u, P [u] [[u]]) ->
  (forall u v t,
      is_high_surrogate u && is_low_surrogate v = true ->
      P t (Array_from t) -> P (u :: v :: t) ([u; v] :: Array_from t)) ->
  (forall u v t,
      is_high_surrogate u && is_low_surrogate v = false ->
      P (v :: t) (Array_from (v :: t)) ->
      P (u :: v :: t) ([u] :: Array_from (v :: t))) ->
  forall s, P s (Array_from s).
Proof.
  intros Hnil Hone Hpair Hunit.
  assert (H : forall k s, (length s <= k)%nat -> P s (Array_from s)).
  { intros k. induction k as [|k IH]; intros s Hlen.
    - destruct s; [exact Hnil | cbn [length] in Hlen; lia].
    - destruct s as [|u [|v t]]; [exact Hnil | apply Hone |].
      rewrite Array_from_cons2. cbn [length] in Hlen.
      destruct (is_high_surrogate u && is_low_surrogate v) eqn:E.
      + apply Hpair; [exact E|]. apply IH. lia.
      + apply Hunit; [exact E|]. apply IH. cbn [length]. lia. }
  intros s. now apply (H (length s)).
Qed.

Lemma Array_from_first_unit (s : js_string) :
  Forall (fun char => In (charCodeAt0 char) s) (Array_from s).
Proof.
  apply (Array_from_ind (fun s l => Forall (fun char => In (charCodeAt0 char) s) l)).
  - constructor.
  - intros u. constructor; [now left | constructor].
  - intros u v t _ IH. constructor; [now left|].
    eapply Forall_impl; [|exact IH]. intros char Hin. now right; right.
  - intros u v t _ IH. constructor; [now left|].
    eapply Forall_impl; [|exact IH]. intros char Hin. now right.
Qed.

Lemma Array_from_full_length (s : js_string) :
  length (Array_from s) = length s -> Array_from s = map singleton s.
Proof.
  apply (Array_from_ind
           (fun s l => length l = length s -> l = map singleton s)).
  - reflexivity.
  - reflexivity.
  - intros u v t _ _ Hlen. cbn [length] in Hlen.
    pose proof (Array_from_length t). lia.
  - intros u v t _ IH Hlen. cbn [length] in Hlen.
    change (map singleton (u :: v :: t)) with ([u] :: map singleton (v :: t)).
    f_equal. apply IH. cbn [length]. lia.
Qed.

Lemma first_units_eq (s : js_string) :
  map charCodeAt0 (Array_from s) = s <-> Array_from s = map singleton s.
Proof.
  split.
  - intros H. apply Array_from_full_length.
    rewrite <- H at 2. now rewrite length_map.
  - intros H. rewrite H, map_map. apply map_id.
Qed.

(** ** Codec *)

Lemma encryptMessage_values (p q e d : Z) (text : js_string) :
  Z.prime p -> Z.prime q -> 0 < e ->
  well_formed text ->
  encryptMessage text (publicKey (key_of p q e d))
  = Return (map (fun char => charCodeAt0 char ^ e mod (p * q)) (Array_from text)).
Proof.
  intros Hp Hq He Hwf. unfold well_formed in Hwf. rewrite Forall_forall in Hwf.
  pose proof (Z.prime_ge_2 p Hp). pose proof (Z.prime_ge_2 q Hq).
  unfold encryptMessage, key_of. cbn [publicKey PublicKey.e PublicKey.n].
  apply mapM_pure. intros char Hchar.
  pose proof (Array_from_first_unit text) as Hfirst.
  rewrite Forall_forall in Hfirst.
  specialize (Hwf _ (Hfirst char Hchar)).
  rewrite modPow_spec by nia.
  destruct (Z.ltb_spec 0 e); [reflexivity | lia].
Qed.

(** X8: with the public key of a returned key pair, the ciphertext of a
    well-formed string has one number per code point, each in [0, n). *)
Theorem encryptMessage_range (p q : Z) (kp : RSAKeyPair) (text : js_string) :
  generateRSAKeyPair p q = Return kp ->
  well_formed text ->
  exists c,
    encryptMessage text (publicKey kp) = Return c
    /\ length c = length (Array_from text)
    /\ Forall (fun x => 0 <= x < PublicKey.n (publicKey kp)) c.
Proof.
  intros Hgen Hwf.
  destruct (generateRSAKeyPair_returned p q kp Hgen)
    as (e & d & -> & Hp & Hq & Hne & He & Hd & Hinv).
  rewrite (encryptMessage_values p q e d text Hp Hq He Hwf).
  eexists. split; [reflexivity|]. split; [apply length_map|].
  apply Forall_forall. intros x Hx. apply in_map_iff in Hx.
  destruct Hx as (char & <- & _).
  unfold key_of. cbn [publicKey PublicKey.n].
  pose proof (Z.prime_ge_2 p Hp). pose proof (Z.prime_ge_2 q Hq).
  apply Z.mod_pos_bound. nia.
Qed.

Lemma encryptMessage_range_witness :
  generateRSAKeyPair 11 13 = Return kp_11_13
  /\ well_formed [72; 73]
  /\ exists c,
      encryptMessage [72; 73] (publicKey kp_11_13) = Return c
      /\ length c = length (Array_from [72; 73])
      /\ Forall (fun x => 0 <= x < PublicKey.n (publicKey kp_11_13)) c.
Proof.
  split; [reflexivity|].
  assert (Hwf : well_formed [72; 73]) by (repeat constructor; lia).
  split; [exact Hwf|].
  apply (encryptMessage_range 11 13 kp_11_13 [72; 73]); [reflexivity | exact Hwf].
Defined.

(** X9: what the round trip returns on any string: for a returned key
    pair with [(n - 1)^2 < 2^53] and a well-formed string with all code
    units below [n], decrypting the encryption gives the first code unit
    of every code point, and this is the string itself exactly when the
    string holds no surrogate pair. *)
Theorem roundtrip_first_units (p q : Z) (kp : RSAKeyPair) (text : js_string) :
  generateRSAKeyPair p q = Return kp ->
  (PublicKey.n (publicKey kp) - 1) ^ 2 < 2 ^ 53 ->
  well_formed text ->
  Forall (fun u => u < PublicKey.n (publicKey kp)) text ->
  exists c,
    encryptMessage text (publicKey kp) = Return c
    /\ decryptMessage c (privateKey kp)
       = Return (map charCodeAt0 (Array_from text))
    /\ (map charCodeAt0 (Array_from text) = text
        <-> Array_from text = map singleton text).
Proof.
  intros Hgen _ Hwf Hlt.
  destruct (generateRSAKeyPair_returned p q kp Hgen)
    as (e & d & -> & Hp & Hq & Hne & He & Hd & Hinv).
  rewrite (encryptMessage_values p q e d text Hp Hq He Hwf).
  eexists. split; [reflexivity|]. split; [|apply first_units_eq].
  unfold well_formed in Hwf. rewrite Forall_forall in Hwf, Hlt.
  unfold key_of in *. cbn [publicKey privateKey PublicKey.n] in *.
  pose proof (Z.prime_ge_2 p Hp). pose proof (Z.prime_ge_2 q Hq).
  assert (Hn : 0 < p * q) by nia.
  rewrite decryptMessage_eq. cbn [PrivateKey.d PrivateKey.n].
  rewrite mapM_map. rewrite (mapM_pure _ charCodeAt0).
  - cbn [bind]. apply f_equal. rewrite map_map.
    apply map_ext_in. intros char Hchar. apply Z.mod_small.
    pose proof (Array_from_first_unit text) as Hfirst.
    rewrite Forall_forall in Hfirst. apply Hwf, Hfirst, Hchar.
  - intros char Hchar.
    pose proof (Array_from_first_unit text) as Hfirst.
    rewrite Forall_forall in Hfirst. specialize (Hfirst char Hchar).
    specialize (Hwf _ Hfirst). specialize (Hlt _ Hfirst).
    pose proof (Z.mod_pos_bound (charCodeAt0 char ^ e) (p * q) Hn).
    rewrite modPow_spec by lia.
    destruct (Z.ltb_spec 0 d); [|lia].
    rewrite unit_roundtrip; try assumption; try lia.
    reflexivity.
Qed.

Lemma roundtrip_first_units_witness :
  generateRSAKeyPair 359 373 = Return kp_359_373
  /\ (PublicKey.n (publicKey kp_359_373) - 1) ^ 2 < 2 ^ 53
  /\ exists c,
      encryptMessage grinning_face (publicKey kp_359_373) = Return c
      /\ decryptMessage c (privateKey kp_359_373)
         = Return (map charCodeAt0 (Array_from grinning_face))
      /\ (map charCodeAt0 (Array_from grinning_face) = grinning_face
          <-> Array_from grinning_face = map singleton grinning_face).
Proof.
  split; [exact keys_359_373|]. split; [reflexivity|].
  apply (roundtrip_first_units 359 373 kp_359_373 grinning_face keys_359_373).
  - reflexivity.
  - repeat constructor; lia.
  - repeat constructor.
Defined.

Lemma mapM_app {A B : Type} (f : A -> outcome B) (l1 l2 : list A) :
  mapM f (l1 ++ l2)
  = (b1 <- mapM f l1 ;; b2 <- mapM f l2 ;; Return (b1 ++ b2)).
Proof.
  induction l1 as [|a l1 IH]; cbn [app mapM bind].
  - destruct (mapM f l2); reflexivity.
  - rewrite IH. destruct (f a); cbn [bind]; try reflexivity.
    destruct (mapM f l1); cbn [bind]; try reflexivity.
    destruct (mapM f l2); reflexivity.
Qed.

Lemma Array_from_concat (s : js_string) : concat (Array_from s) = s.
Proof.
  apply (Array_from_ind (fun s l => concat l = s)).
  - reflexivity.
  - reflexivity.
  - intros u v t _ IH. cbn [concat app]. now rewrite IH.
  - intros u v t _ IH. cbn [concat app]. now rewrite IH.
Qed.

(** X10: the trace of a decryption has one record per ciphertext element;
    the record of an element holds its [modPow] value as [result] and as
    [ascii] and the character of that value, and the characters of the
    records, joined in order, are the string [decryptMessage] returns. *)
Theorem getDecryptionSteps_correct (ciphertext : list Z) (k : PrivateKey.t) :
  0 < PrivateKey.n k ->
  exists steps,
    getDecryptionSteps ciphertext k = Return steps
    /\ length steps = length ciphertext
    /\ Forall2 (fun c st =>
                  modPow c (PrivateKey.d k) (PrivateKey.n k) = Return (result st)
                  /\ ascii st = result st
                  /\ character st = String_fromCharCode (result st))
               ciphertext steps
    /\ decryptMessage ciphertext k = Return (join (map character steps)).
Proof.
  intros _.
  destruct (mapM_total
              (fun n =>
                 result <- modPow n (PrivateKey.d k) (PrivateKey.n k) ;;
                 Return {| character := String_fromCharCode result;
                           ascii := result;
                           calculation :=
                             (num n ++ "^" ++ num (PrivateKey.d k)
                                  ++ " mod " ++ num (PrivateKey.n k))%string;
                           result := result |})
              ciphertext) as [steps Hsteps].
  { intros c _. destruct (modPow_total c (PrivateKey.d k) (PrivateKey.n k)) as [r Hr].
    rewrite Hr. cbn [bind]. eauto. }
  exists steps. split; [exact Hsteps|].
  split; [eapply mapM_length; exact Hsteps|].
  apply mapM_Forall2 in Hsteps.
  assert (HF : Forall2 (fun c st =>
                  modPow c (PrivateKey.d k) (PrivateKey.n k) = Return (result st)
                  /\ ascii st = result st
                  /\ character st = String_fromCharCode (result st))
               ciphertext steps).
  { induction Hsteps as [|c st cs sts Hst _ IH]; constructor; [|exact IH].
    destruct (modPow c _ _) as [r| |]; cbn [bind] in Hst; try discriminate.
    injection Hst as <-. cbn. repeat split. }
  split; [exact HF|].
  unfold decryptMessage.
  assert (Hparts : mapM (fun num =>
                           r <- modPow num (PrivateKey.d k) (PrivateKey.n k) ;;
                           Return (String_fromCharCode r)) ciphertext
                   = Return (map character steps)).
  { apply mapM_Forall2. clear Hsteps.
    induction HF as [|c st cs sts (Hr & _ & Hchar) _ IH]; cbn [map]; constructor;
      [|exact IH].
    rewrite Hr. cbn [bind]. now rewrite Hchar. }
  rewrite Hparts. reflexivity.
Qed.

Lemma getDecryptionSteps_correct_witness :
  0 < PrivateKey.n (privateKey kp_11_13)
  /\ exists steps,
      getDecryptionSteps [19; 83] (privateKey kp_11_13) = Return steps
      /\ length steps = 2%nat
      /\ decryptMessage [19; 83] (privateKey kp_11_13)
         = Return (join (map character steps)).
Proof.
  split; [cbn; lia|].
  destruct (getDecryptionSteps_correct [19; 83] (privateKey kp_11_13)
              ltac:(cbn; lia)) as (steps & Hs & Hlen & _ & Hdec).
  exists steps. split; [exact Hs|]. split; [exact Hlen | exact Hdec].
Defined.

(** X11: the records of an encryption trace partition the message: each
    record holds one element of [Array.from(message)] as [character] and
    its first code unit as [ascii], and the characters of the records,
    joined in order, are the message itself. *)
Theorem getEncryptionSteps_characters (message : js_string) (pk : PublicKey.t) :
  0 < PublicKey.n pk ->
  exists steps,
    getEncryptionSteps message pk = Return steps
    /\ map character steps = Array_from message
    /\ join (map character steps) = message
    /\ Forall (fun st =>
                 ascii st = charCodeAt0 (character st)
                 /\ modPow (ascii st) (PublicKey.e pk) (PublicKey.n pk)
                    = Return (result st))
              steps.
Proof.
  intros _.
  destruct (getEncryptionSteps_total message pk) as [steps Hsteps].
  exists steps. split; [exact Hsteps|].
  unfold getEncryptionSteps in Hsteps. apply mapM_Forall2 in Hsteps.
  assert (H : map character steps = Array_from message
              /\ Forall (fun st =>
                 ascii st = charCodeAt0 (character st)
                 /\ modPow (ascii st) (PublicKey.e pk) (PublicKey.n pk)
                    = Return (result st)) steps).
  { induction Hsteps as [|char st chars sts Hst _ [IHc IHf]]; [now split|].
    cbv zeta in Hst.
    destruct (modPow (charCodeAt0 char) _ _) as [r| |] eqn:Hr;
      cbn [bind] in Hst; try discriminate.
    injection Hst as <-. cbn [map character ascii result].
    split; [now rewrite IHc|]. constructor; [|exact IHf].
    cbn [ascii character result]. split; [reflexivity | exact Hr]. }
  destruct H as [Hchars Hall].
  split; [exact Hchars|]. split; [|exact Hall].
  rewrite Hchars. apply Array_from_concat.
Qed.

Lemma getEncryptionSteps_characters_witness :
  0 < PublicKey.n (publicKey kp_359_373)
  /\ exists steps,
      getEncryptionSteps grinning_face (publicKey kp_359_373) = Return steps
      /\ map character steps = Array_from grinning_face
      /\ join (map character steps) = grinning_face.
Proof.
  split; [cbn; lia|].
  destruct (getEncryptionSteps_characters grinning_face (publicKey kp_359_373)
              ltac:(cbn; lia)) as (steps & Hs & Hc & Hj & _).
  exists steps. split; [exact Hs|]. split; [exact Hc | exact Hj].
Defined.

(** X12: decryption works element by element: the decryption of two
    arrays put end to end is the decryption of the first followed by the
    decryption of the second. *)
Theorem decryptMessage_app (c1 c2 : list Z) (k : PrivateKey.t) :
  0 < PrivateKey.n k ->
  exists s1 s2,
    decryptMessage c1 k = Return s1
    /\ decryptMessage c2 k = Return s2
    /\ decryptMessage (c1 ++ c2) k = Return (s1 ++ s2).
Proof.
  intros _.
  destruct (decryptMessage_total c1 k) as (r1 & Hr1 & Hs1).
  destruct (decryptMessage_total c2 k) as (r2 & Hr2 & Hs2).
  exists (map (fun r => r mod 65536) r1), (map (fun r => r mod 65536) r2).
  split; [exact Hs1|]. split; [exact Hs2|].
  rewrite decryptMessage_eq, mapM_app, Hr1, Hr2. cbn [bind].
  now rewrite map_app.
Qed.

Lemma decryptMessage_app_witness :
  0 < 143
  /\ exists s1 s2,
      decryptMessage [19] {| PrivateKey.d := 103; PrivateKey.n := 143 |} = Return s1
      /\ decryptMessage [83] {| PrivateKey.d := 103; PrivateKey.n := 143 |} = Return s2
      /\ decryptMessage ([19] ++ [83]) {| PrivateKey.d := 103; PrivateKey.n := 143 |}
         = Return (s1 ++ s2).
Proof.
  split; [lia|].
  apply (decryptMessage_app [19] [83] {| PrivateKey.d := 103; PrivateKey.n := 143 |}).
  cbn. lia.
Defined.

Lemma units_String (c : Ascii.ascii) (s : string) :
  units (String c s) = Z.of_nat (nat_of_ascii c) :: units s.
Proof. reflexivity. Qed.

Lemma units_of_uint_decimal (d : uint) :
  Forall decimal (units (NilEmpty.string_of_uint d)).
Proof.
  induction d; cbn [NilEmpty.string_of_uint]; try rewrite units_String;
    constructor; try assumption; unfold decimal; cbn; lia.
Qed.

Lemma fold_of_uint_acc (d : uint) :
  forall acc,
    fold_left (accumulate 10) (units (NilEmpty.string_of_uint d)) (Z.pos acc)
    = Z.pos (Pos.of_uint_acc d acc).
Proof.
  induction d; intros acc; cbn [NilEmpty.string_of_uint Pos.of_uint_acc];
    try rewrite units_String; cbn [fold_left]; try reflexivity;
    rewrite <- IHd; f_equal; unfold accumulate;
    match goal with
    | |- context [digit ?u] =>
        let v := eval vm_compute in (digit u) in change (digit u) with v
    end; lia.
Qed.

Lemma fold_of_uint (d : uint) :
  fold_left (accumulate 10) (units (NilEmpty.string_of_uint d)) 0
  = Z.of_N (Pos.of_uint d).
Proof.
  induction d; cbn [NilEmpty.string_of_uint Pos.of_uint];
    try rewrite units_String; cbn [fold_left]; try reflexivity;
    try (exact IHd); cbn [Z.of_N]; rewrite <- fold_of_uint_acc; reflexivity.
Qed.

Lemma decimal_not_whitespace (u : Z) : decimal u -> is_whitespace u = false.
Proof.
  unfold decimal, is_whitespace. intros H.
  repeat match goal with
         | |- context [?a =? ?b] =>
             let E := fresh in destruct (Z.eqb_spec a b) as [E|E]; [lia|]
         end.
  destruct (Z.leb_spec 8192 u); [lia|]. reflexivity.
Qed.

Lemma decimal_is_digit (u : Z) : decimal u -> is_digit 10 u = true.
Proof.
  unfold decimal, is_digit, digit_value. intros H.
  destruct (Z.leb_spec 48 u); [|lia]. destruct (Z.leb_spec u 57); [|lia].
  cbn [andb]. apply Z.ltb_lt. lia.
Qed.

Lemma takeWhile_all {A : Type} (f : A -> bool) (l : list A) :
  Forall (fun a => f a = true) l -> takeWhile f l = l.
Proof.
  induction 1 as [|a l Ha _ IH]; cbn [takeWhile]; [reflexivity|].
  now rewrite Ha, IH.
Qed.

Lemma dropWhile_head {A : Type} (f : A -> bool) (a : A) (l : list A) :
  f a = false -> dropWhile f (a :: l) = a :: l.
Proof. intros H. cbn [dropWhile]. now rewrite H. Qed.

Lemma parseInt_decimal (u : Z) (t : js_string) :
  decimal u -> Forall decimal t ->
  parseInt (u :: t) = Some (fold_left (accumulate 10) (u :: t) 0).
Proof.
  intros Hu Ht.
  assert (Hall : Forall (fun a => is_digit 10 a = true) (u :: t)).
  { constructor; [now apply decimal_is_digit|].
    eapply Forall_impl; [|exact Ht]. intros a. apply decimal_is_digit. }
  assert (Hparse : parse_digits 10 1 (u :: t)
                   = Some (fold_left (accumulate 10) (u :: t) 0)).
  { unfold parse_digits. rewrite (takeWhile_all _ _ Hall).
    now rewrite Z.mul_1_l. }
  unfold parseInt, trimStart.
  rewrite dropWhile_head by now apply decimal_not_whitespace.
  unfold decimal in Hu.
  assert (Hcases : u = 48 \/ (u <> 48 /\ u <> 45 /\ u <> 43)) by lia.
  destruct Hcases as [->|Hne].
  - destruct t as [|x t'].
    + reflexivity.
    + assert (Hx : decimal x) by now inversion Ht.
      unfold decimal in Hx.
      destruct (Z.eqb_spec x 120); [lia|]. destruct (Z.eqb_spec x 88); [lia|].
      cbn [orb]. exact Hparse.
  - assert (Hshape : exists p, u = Z.pos p) by (destruct u; try lia; eauto).
    destruct Hshape as [p ->].
    do 6 (destruct p as [p|p|]; try lia; try exact Hparse).
Qed.

Lemma parseInt_negative (u : Z) (t : js_string) :
  decimal u -> Forall decimal t ->
  parseInt (45 :: u :: t) = Some (- fold_left (accumulate 10) (u :: t) 0).
Proof.
  intros Hu Ht.
  assert (Hall : Forall (fun a => is_digit 10 a = true) (u :: t)).
  { constructor; [now apply decimal_is_digit|].
    eapply Forall_impl; [|exact Ht]. intros a. apply decimal_is_digit. }
  assert (Hparse : parse_digits 10 (-1) (u :: t)
                   = Some (- fold_left (accumulate 10) (u :: t) 0)).
  { unfold parse_digits. rewrite (takeWhile_all _ _ Hall).
    f_equal; try lia. }
  unfold parseInt, trimStart.
  rewrite dropWhile_head by reflexivity.
  unfold decimal in Hu.
  assert (Hcases : u = 48 \/ u <> 48) by lia.
  destruct Hcases as [->|Hne].
  - destruct t as [|x t'].
    + reflexivity.
    + assert (Hx : decimal x) by now inversion Ht.
      unfold decimal in Hx.
      destruct (Z.eqb_spec x 120); [lia|]. destruct (Z.eqb_spec x 88); [lia|].
      cbn [orb]. exact Hparse.
  - assert (Hshape : exists p, u = Z.pos p) by (destruct u; try lia; eauto).
    destruct Hshape as [p ->].
    do 6 (destruct p as [p|p|]; try lia; try exact Hparse).
Qed.

Lemma string_of_uint_nonnil (d : uint) :
  d <> Nil -> NilZero.string_of_uint d = NilEmpty.string_of_uint d.
Proof. destruct d; [contradiction | reflexivity ..]. Qed.

Lemma units_of_uint_nonempty (d : uint) :
  d <> Nil -> units (NilEmpty.string_of_uint d) <> [].
Proof. destruct d; [contradiction | discriminate ..]. Qed.

(** The numeral of a non-negative integer: digits only, one at least, and
    their value is the integer. *)
Lemma Number_toString_nonneg (x : Z) :
  0 <= x ->
  Number_toString x <> []
  /\ Forall decimal (Number_toString x)
  /\ fold_left (accumulate 10) (Number_toString x) 0 = x.
Proof.
  intros Hx. unfold Number_toString, num.
  destruct x as [|p|p]; [repeat split; try discriminate; repeat constructor;
                          unfold decimal; cbn; lia | | lia].
  cbn [Z.to_int NilZero.string_of_int].
  pose proof (Unsigned.to_uint_nonnil p) as Hnn.
  rewrite (string_of_uint_nonnil _ Hnn).
  split; [now apply units_of_uint_nonempty|].
  split; [apply units_of_uint_decimal|].
  now rewrite fold_of_uint, Unsigned.of_to.
Qed.

Lemma Number_toString_neg (p : positive) :
  Number_toString (Z.neg p) = 45 :: Number_toString (Z.pos p).
Proof. reflexivity. Qed.

(** [parseInt] reads back the numeral of every integer. *)
Lemma parseInt_Number_toString (x : Z) : parseInt (Number_toString x) = Some x.
Proof.
  destruct x as [|p|p].
  - reflexivity.
  - destruct (Number_toString_nonneg (Z.pos p) ltac:(lia)) as (Hne & Hdec & Hval).
    destruct (Number_toString (Z.pos p)) as [|u t]; [contradiction|].
    inversion Hdec; subst. rewrite parseInt_decimal by assumption.
    now rewrite Hval.
  - rewrite Number_toString_neg.
    destruct (Number_toString_nonneg (Z.pos p) ltac:(lia)) as (Hne & Hdec & Hval).
    destruct (Number_toString (Z.pos p)) as [|u t]; [contradiction|].
    inversion Hdec; subst. rewrite parseInt_negative by assumption.
    now rewrite Hval.
Qed.

(** ** [trim], [split] and [join] *)

Lemma trim_no_whitespace (s : js_string) :
  Forall (fun u => is_whitespace u = false) s -> trim s = s.
Proof.
  intros H. unfold trim, trimStart, trimEnd.
  assert (Hdrop : forall l, Forall (fun u => is_whitespace u = false) l ->
                            dropWhile is_whitespace l = l).
  { intros l Hl. destruct Hl as [|u l Hu _]; [reflexivity|].
    now apply dropWhile_head. }
  rewrite (Hdrop s H), Hdrop; [apply rev_involutive|].
  now apply Forall_rev.
Qed.

Lemma trim_decimal (s : js_string) : Forall decimal s -> trim s = s.
Proof.
  intros H. apply trim_no_whitespace.
  eapply Forall_impl; [|exact H]. apply decimal_not_whitespace.
Qed.

Lemma trim_head_last (u : Z) (s : js_string) :
  is_whitespace u = false -> trim (u :: s) <> [].
Proof.
  intros Hu. unfold trim, trimStart, trimEnd.
  rewrite dropWhile_head by exact Hu.
  intros H. apply (f_equal (@rev Z)) in H. rewrite rev_involutive in H.
  cbn [rev] in H.
  assert (Hin : In u (dropWhile is_whitespace (rev s ++ [u]))).
  { generalize (rev s). intros l. induction l as [|a l IH]; cbn [app dropWhile].
    - rewrite Hu. now left.
    - destruct (is_whitespace a); [exact IH|]. right. apply in_or_app. right. now left. }
  rewrite H in Hin. exact Hin.
Qed.

Lemma String_split_free (sep : Z) (a : js_string) :
  Forall (fun u => u <> sep) a -> String_split sep a = [a].
Proof.
  induction 1 as [|u a Hu _ IH]; cbn [String_split]; [reflexivity|].
  destruct (Z.eqb_spec u sep); [contradiction|]. now rewrite IH.
Qed.

Lemma String_split_app (sep : Z) (a rest : js_string) :
  Forall (fun u => u <> sep) a ->
  String_split sep (a ++ sep :: rest) = a :: String_split sep rest.
Proof.
  induction 1 as [|u a Hu _ IH]; cbn [app String_split].
  - now rewrite Z.eqb_refl.
  - destruct (Z.eqb_spec u sep); [contradiction|]. now rewrite IH.
Qed.

(** Splitting a joined array gives the array back, when it is not empty
    and no element holds the separator. *)
Lemma String_split_join (sep : Z) (parts : list js_string) :
  parts <> [] ->
  Forall (Forall (fun u => u <> sep)) parts ->
  String_split sep (Array_join [sep] parts) = parts.
Proof.
  intros Hne Hfree. induction Hfree as [|a rest Ha Hrest IH]; [contradiction|].
  destruct rest as [|b rest'].
  - cbn [Array_join]. now apply String_split_free.
  - change (Array_join [sep] (a :: b :: rest'))
      with (a ++ [sep] ++ Array_join [sep] (b :: rest')).
    cbn [app]. rewrite String_split_app by exact Ha.
    f_equal. apply IH. discriminate.
Qed.

Lemma Number_toString_no_whitespace (x : Z) :
  Forall (fun u => is_whitespace u = false) (Number_toString x).
Proof.
  assert (H : forall y, 0 <= y ->
                        Forall (fun u => is_whitespace u = false) (Number_toString y)).
  { intros y Hy. destruct (Number_toString_nonneg y Hy) as (_ & Hdec & _).
    eapply Forall_impl; [|exact Hdec]. apply decimal_not_whitespace. }
  destruct x as [|p|p]; try (apply H; lia).
  rewrite Number_toString_neg. constructor; [reflexivity | apply H; lia].
Qed.

Lemma Number_toString_nonempty (x : Z) : Number_toString x <> [].
Proof.
  destruct x as [|p|p]; try (apply Number_toString_nonneg; lia).
  rewrite Number_toString_neg. discriminate.
Qed.

Lemma whitespace_32 : is_whitespace 32 = true.
Proof. reflexivity. Qed.

(** An array of integers, written as [numbers.join(' ')], is read back
    by [text.split(' ').map(num => parseInt(num.trim()))]. *)
Lemma parse_joined (numbers : list Z) :
  numbers <> [] ->
  map (fun num => parseInt (trim num))
      (String_split 32 (Array_join [32] (map Number_toString numbers)))
  = map Some numbers.
Proof.
  intros Hne. rewrite String_split_join.
  - rewrite map_map. apply map_ext. intros x.
    rewrite trim_no_whitespace by apply Number_toString_no_whitespace.
    apply parseInt_Number_toString.
  - destruct numbers; [contradiction | discriminate].
  - apply Forall_forall. intros s Hs. apply in_map_iff in Hs.
    destruct Hs as (x & <- & _).
    eapply Forall_impl; [|apply Number_toString_no_whitespace].
    intros u Hu ->. rewrite whitespace_32 in Hu. discriminate.
Qed.

Lemma joined_not_blank (numbers : list Z) :
  numbers <> [] ->
  not_string (trim (Array_join [32] (map Number_toString numbers))) = false.
Proof.
  intros Hne. destruct numbers as [|x rest]; [contradiction|].
  pose proof (Number_toString_nonempty x) as Hx.
  pose proof (Number_toString_no_whitespace x) as Hws.
  assert (Hshape : exists u t,
             Array_join [32] (map Number_toString (x :: rest)) = u :: t
             /\ is_whitespace u = false).
  { cbn [map]. destruct (Number_toString x) as [|u t]; [contradiction|].
    inversion Hws; subst.
    destruct (map Number_toString rest); cbn [Array_join app]; eauto. }
  destruct Hshape as (u & t & -> & Hu).
  pose proof (trim_head_last u t Hu).
  destruct (trim (u :: t)); [contradiction | reflexivity].
Qed.

Lemma existsb_isNaN_Some (l : list Z) : existsb isNaN (map Some l) = false.
Proof. induction l; cbn; auto. Qed.

Lemma map_value_Some (l : list Z) :
  map (fun num : option Z => match num with Some v => v | None => 0 end)
      (map Some l) = l.
Proof. rewrite map_map. apply map_id. Qed.

Lemma Array_from_nonnil (s : js_string) : s <> [] -> Array_from s <> [].
Proof.
  destruct s as [|u [|v t]]; [contradiction | discriminate |].
  intros _. rewrite Array_from_cons2.
  destruct (is_high_surrogate u && is_low_surrogate v); discriminate.
Qed.

Lemma trim_nil : trim [] = [].
Proof. reflexivity. Qed.

Lemma encryptMessage_total (text : js_string) (pk : PublicKey.t) :
  exists c, encryptMessage text pk = Return c
            /\ length c = length (Array_from text).
Proof.
  destruct (mapM_total
              (fun char => modPow (charCodeAt0 char) (PublicKey.e pk) (PublicKey.n pk))
              (Array_from text)) as [c Hc].
  { intros char _. apply modPow_total. }
  exists c. split; [exact Hc|]. eapply mapM_length; exact Hc.
Qed.

Lemma getDecryptionSteps_total (c : list Z) (k : PrivateKey.t) :
  exists steps, getDecryptionSteps c k = Return steps.
Proof.
  apply mapM_total. intros x _.
  destruct (modPow_total x (PrivateKey.d k) (PrivateKey.n k)) as [r Hr].
  rewrite Hr. cbn [bind]. eauto.
Qed.

(** Decrypting the ciphertext of a string, for the exponents of a
    returned key pair. *)
Lemma decryptMessage_values (p q e d : Z) (text : js_string) :
  Z.prime p -> Z.prime q -> p <> q ->
  0 < e -> 0 < d -> (e * d) mod ((p - 1) * (q - 1)) = 1 ->
  well_formed text ->
  Forall (fun u => u < p * q) text ->
  decryptMessage
    (map (fun char => charCodeAt0 char ^ e mod (p * q)) (Array_from text))
    (privateKey (key_of p q e d))
  = Return (map charCodeAt0 (Array_from text)).
Proof.
  intros Hp Hq Hne He Hd Hinv Hwf Hlt.
  unfold well_formed in Hwf. rewrite Forall_forall in Hwf, Hlt.
  unfold key_of. cbn [privateKey].
  pose proof (Z.prime_ge_2 p Hp). pose proof (Z.prime_ge_2 q Hq).
  assert (Hn : 0 < p * q) by nia.
  rewrite decryptMessage_eq. cbn [PrivateKey.d PrivateKey.n].
  rewrite mapM_map. rewrite (mapM_pure _ charCodeAt0).
  - cbn [bind]. apply f_equal. rewrite map_map.
    apply map_ext_in. intros char Hchar. apply Z.mod_small.
    pose proof (Array_from_first_unit text) as Hfirst.
    rewrite Forall_forall in Hfirst. apply Hwf, Hfirst, Hchar.
  - intros char Hchar.
    pose proof (Array_from_first_unit text) as Hfirst.
    rewrite Forall_forall in Hfirst. specialize (Hfirst char Hchar).
    specialize (Hwf _ Hfirst). specialize (Hlt _ Hfirst).
    pose proof (Z.mod_pos_bound (charCodeAt0 char ^ e) (p * q) Hn).
    rewrite modPow_spec by lia.
    destruct (Z.ltb_spec 0 d); [|lia].
    rewrite unit_roundtrip; try assumption; try lia.
    reflexivity.
Qed.

(** X13: in the encryption panel, [handleEncrypt] followed by [handleDecrypt]
    shows the message again: with a returned key pair with
    [(n - 1)^2 < 2^53] and a well-formed, non-blank message whose code
    units are below [n], both calls succeed, the first stores the numbers
    of [encryptMessage] as numerals joined by spaces
    ([encrypted.join(' ')]), the second reads that text back, and the
    decrypted message is the first code unit of every code point of the
    message: the message itself when it holds no surrogate pair. *)
Theorem panel_roundtrip (p q : Z) (kp : RSAKeyPair) (st : RSAEncryption.State) :
  generateRSAKeyPair p q = Return kp ->
  (PublicKey.n (publicKey kp) - 1) ^ 2 < 2 ^ 53 ->
  well_formed (RSAEncryption.message st) ->
  Forall (fun u => u < PublicKey.n (publicKey kp)) (RSAEncryption.message st) ->
  not_string (trim (RSAEncryption.message st)) = false ->
  exists st1 t1 st2 t2 c,
    RSAEncryption.handleEncrypt (Some kp) st = Return (st1, t1)
    /\ title t1 = "Message Encrypted"%string
    /\ encryptMessage (RSAEncryption.message st) (publicKey kp) = Return c
    /\ RSAEncryption.encryptedMessage st1
       = Array_join [32] (map Number_toString c)
    /\ Forall (fun x => 0 <= x < PublicKey.n (publicKey kp)) c
    /\ RSAEncryption.handleDecrypt (Some kp) st1 = Return (st2, t2)
    /\ title t2 = "Message Decrypted"%string
    /\ RSAEncryption.message st2 = RSAEncryption.message st
    /\ RSAEncryption.decryptedMessage st2
       = map charCodeAt0 (Array_from (RSAEncryption.message st))
    /\ (Array_from (RSAEncryption.message st)
        = map singleton (RSAEncryption.message st) ->
        RSAEncryption.decryptedMessage st2 = RSAEncryption.message st).
Proof.
  intros Hgen _ Hwf Hlt Hblank.
  destruct (generateRSAKeyPair_returned p q kp Hgen)
    as (e & d & -> & Hp & Hq & Hne & He & Hd & Hinv).
  set (text := RSAEncryption.message st) in *.
  set (c := map (fun char => charCodeAt0 char ^ e mod (p * q)) (Array_from text)).
  assert (Hc : c <> []).
  { subst c. intros H. apply map_eq_nil in H.
    apply (Array_from_nonnil text); [|exact H].
    intros E. rewrite E in Hblank. discriminate. }
  pose proof (encryptMessage_values p q e d text Hp Hq He Hwf) as Henc.
  destruct (getEncryptionSteps_total text (publicKey (key_of p q e d)))
    as [steps Hsteps].
  destruct (getDecryptionSteps_total c (privateKey (key_of p q e d)))
    as [dsteps Hdsteps].
  pose proof (decryptMessage_values p q e d text Hp Hq Hne He ltac:(lia) Hinv Hwf Hlt)
    as Hdec. fold c in Hdec, Henc.
  eexists _, _, _, _, c.
  split.
  { unfold RSAEncryption.handleEncrypt. fold text. rewrite Hblank, Henc, Hsteps.
    cbn [bind try_catch]. reflexivity. }
  split; [reflexivity|].
  split; [exact Henc|].
  split; [reflexivity|].
  split.
  { apply Forall_forall. intros x Hx. subst c. apply in_map_iff in Hx.
    destruct Hx as (char & <- & _).
    unfold key_of. cbn [publicKey PublicKey.n].
    pose proof (Z.prime_ge_2 p Hp). pose proof (Z.prime_ge_2 q Hq).
    apply Z.mod_pos_bound. nia. }
  split.
  { unfold RSAEncryption.handleDecrypt. cbn [RSAEncryption.encryptedMessage].
    rewrite (joined_not_blank c Hc), (parse_joined c Hc).
    rewrite existsb_isNaN_Some, map_value_Some, Hdec, Hdsteps.
    cbn [bind try_catch]. reflexivity. }
  split; [reflexivity|].
  cbn [RSAEncryption.message RSAEncryption.decryptedMessage].
  split; [reflexivity|]. split; [reflexivity|].
  intros Hunits. now apply first_units_eq.
Qed.

Lemma panel_roundtrip_witness :
  generateRSAKeyPair 11 13 = Return kp_11_13
  /\ (PublicKey.n (publicKey kp_11_13) - 1) ^ 2 < 2 ^ 53
  /\ exists st1 t1 st2 t2,
      RSAEncryption.handleEncrypt (Some kp_11_13) panel_HI = Return (st1, t1)
      /\ RSAEncryption.encryptedMessage st1 = units "19 83"
      /\ RSAEncryption.handleDecrypt (Some kp_11_13) st1 = Return (st2, t2)
      /\ RSAEncryption.decryptedMessage st2 = [72; 73].
Proof.
  split; [reflexivity|]. split; [reflexivity|].
  destruct (panel_roundtrip 11 13 kp_11_13 panel_HI eq_refl)
    as (st1 & t1 & st2 & t2 & c & H1 & _ & _ & _ & _ & H2 & _ & _ & Hd & _).
  - reflexivity.
  - repeat constructor; cbn; lia.
  - repeat constructor.
  - reflexivity.
  - exists st1, t1, st2, t2. split; [exact H1|].
    vm_compute in H1. injection H1 as <- <-.
    split; [reflexivity|]. split; [exact H2 | exact Hd].
Defined.

(** X14: the prime checker answers on every text that [parseInt] does
    not read or reads as an integer below 2^53: it asks for a valid
    positive number when the text does not parse to an integer [>= 1],
    and otherwise says "is prime!" exactly when the integer is prime. In
    particular, on the decimal numeral of an integer [n >= 1]. *)
Theorem handlePrimeCheck_correct (primeCheck : js_string) :
  (forall n, parseInt primeCheck = Some n -> n < 2 ^ 53) ->
  exists shown,
    EducationalMode.handlePrimeCheck primeCheck = Return shown
    /\ ((parseInt primeCheck = None
         \/ exists n, parseInt primeCheck = Some n /\ n < 1) ->
        shown = "Please enter a valid positive number"%string)
    /\ (forall n,
           parseInt primeCheck = Some n -> 1 <= n ->
           (Z.prime n -> shown = (num n ++ " is prime!")%string)
           /\ (~ Z.prime n -> shown = (num n ++ " is not prime")%string))
    /\ (forall n, 1 <= n -> primeCheck = Number_toString n ->
                  (Z.prime n <-> shown = (num n ++ " is prime!")%string)).
Proof.
  intros _.
  assert (Hne : forall n, (num n ++ " is not prime")%string
                          <> (num n ++ " is prime!")%string).
  { intros n. generalize (num n). intros s.
    induction s as [|c s IH]; cbn; [discriminate|].
    intros H. injection H as H. now apply IH. }
  assert (Hmain : forall n, 1 <= n -> parseInt primeCheck = Some n ->
            exists shown,
              EducationalMode.handlePrimeCheck primeCheck = Return shown
              /\ (Z.prime n -> shown = (num n ++ " is prime!")%string)
              /\ (~ Z.prime n -> shown = (num n ++ " is not prime")%string)).
  { intros n Hn Hparse. unfold EducationalMode.handlePrimeCheck.
    rewrite Hparse. cbn [not_number].
    destruct (Z.eqb_spec n 0); [lia|]. destruct (Z.ltb_spec n 1); [lia|].
    cbn [orb].
    destruct (isPrime_correct n) as (b & Hb & Hiff). rewrite Hb. cbn [bind].
    destruct b; eexists; (split; [reflexivity|]); split; intros Hp;
      try reflexivity.
    - exfalso. apply Hp. now apply Hiff.
    - apply Hiff in Hp. discriminate. }
  destruct (parseInt primeCheck) as [n|] eqn:Hparse.
  - destruct (Z_lt_le_dec n 1) as [Hlt|Hge].
    + exists "Please enter a valid positive number"%string.
      split.
      { unfold EducationalMode.handlePrimeCheck. rewrite Hparse.
        destruct (Z.ltb_spec n 1); [|lia]. now rewrite orb_true_r. }
      split; [reflexivity|]. split.
      * intros m Hm. injection Hm as <-. lia.
      * intros m Hm ->. rewrite parseInt_Number_toString in Hparse.
        injection Hparse as <-. lia.
    + destruct (Hmain n Hge eq_refl) as (shown & Hshown & Hp & Hnp).
      exists shown. split; [exact Hshown|]. split.
      { intros [H|(m & Hm & Hlt)]; [discriminate | injection Hm as <-; lia]. }
      split.
      * intros m Hm _. injection Hm as <-. split; assumption.
      * intros m Hm ->. rewrite parseInt_Number_toString in Hparse.
        injection Hparse as <-. split; [exact Hp|].
        intros Hs. destruct (isPrime_correct m) as ([|] & _ & Hiff);
          [now apply Hiff|].
        exfalso. apply (Hne m). rewrite <- Hs. symmetry. apply Hnp.
        intros Hprime. apply Hiff in Hprime. discriminate.
  - exists "Please enter a valid positive number"%string.
    split.
    { unfold EducationalMode.handlePrimeCheck. now rewrite Hparse. }
    split; [reflexivity|]. split.
    + intros m Hm. discriminate.
    + intros m Hm ->. rewrite parseInt_Number_toString in Hparse. discriminate.
Qed.

Lemma handlePrimeCheck_correct_witness :
  (forall n, parseInt (units "97") = Some n -> n < 2 ^ 53)
  /\ exists shown,
      EducationalMode.handlePrimeCheck (units "97") = Return shown
      /\ (Z.prime 97 <-> shown = (num 97 ++ " is prime!")%string).
Proof.
  assert (Hbound : forall n, parseInt (units "97") = Some n -> n < 2 ^ 53).
  { intros n H. vm_compute in H. injection H as <-. reflexivity. }
  split; [exact Hbound|].
  destruct (handlePrimeCheck_correct (units "97") Hbound)
    as (shown & Hshown & _ & _ & Hnumeral).
  exists shown. split; [exact Hshown|].
  apply (Hnumeral 97); [lia | reflexivity].
Defined.

(** X15: the modular calculator answers on all texts that, when all three
    parse, parse to a base and an exponent below 2^53 in absolute value
    and to a modulus with [(mod - 1)^2 < 2^53], and never reports
    'Calculation error': it asks to fill all fields when a text does not
    parse or parses to 0, rejects a negative modulus, and otherwise shows
    [base^exp mod mod = result] with the value [modPow] returns, which is
    the modular power when base and exponent are positive, and 1 when the
    exponent is negative. *)
Theorem handleModularCalculation_correct (modBase modExp modMod : js_string) :
  (forall b e m,
      parseInt modBase = Some b -> parseInt modExp = Some e ->
      parseInt modMod = Some m ->
      Z.abs b < 2 ^ 53 /\ Z.abs e < 2 ^ 53 /\ (m - 1) ^ 2 < 2 ^ 53) ->
  exists shown,
    EducationalMode.handleModularCalculation modBase modExp modMod = Return shown
    /\ (not_number (parseInt modBase) || not_number (parseInt modExp)
        || not_number (parseInt modMod) = true ->
        shown = "Please fill all fields"%string)
    /\ (forall b e m,
           parseInt modBase = Some b -> parseInt modExp = Some e ->
           parseInt modMod = Some m ->
           b <> 0 -> e <> 0 -> m <> 0 ->
           (m < 0 -> shown = "Modulus must be positive"%string)
           /\ (0 < m ->
               exists r,
                 calculateModular b e m = Return r
                 /\ shown = (num b ++ "^" ++ num e ++ " mod " ++ num m
                                 ++ " = " ++ num r)%string
                 /\ (0 < b -> 0 < e -> r = b ^ e mod m)
                 /\ (e < 0 -> r = 1))).
Proof.
  intros _.
  unfold EducationalMode.handleModularCalculation.
  destruct (parseInt modBase) as [b|]; [|eexists; split; [reflexivity|];
    split; [reflexivity | intros; discriminate]].
  destruct (parseInt modExp) as [e|]; [|eexists; split; [reflexivity|];
    split; [reflexivity | intros; discriminate]].
  destruct (parseInt modMod) as [m|]; [|eexists; split; [reflexivity|];
    split; [reflexivity | intros; discriminate]].
  destruct (not_number (Some b) || not_number (Some e) || not_number (Some m))
    eqn:Hfalsy.
  { eexists. split; [reflexivity|]. split; [reflexivity|].
    intros b' e' m' Eb Ee Em Hb He Hm.
    injection Eb as <-. injection Ee as <-. injection Em as <-.
    cbn [not_number] in Hfalsy.
    destruct (Z.eqb_spec b 0); [lia|]. destruct (Z.eqb_spec e 0); [lia|].
    destruct (Z.eqb_spec m 0); [lia|]. discriminate. }
  destruct (Z.leb_spec m 0) as [Hle|Hpos].
  { eexists. split; [reflexivity|]. split; [discriminate|].
    intros b' e' m' Eb Ee Em Hb He Hm.
    injection Eb as <-. injection Ee as <-. injection Em as <-.
    split; [reflexivity | lia]. }
  destruct (modPow_total b e m) as [r Hr].
  unfold calculateModular. rewrite Hr. cbn [try_catch].
  eexists. split; [reflexivity|]. split; [discriminate|].
  intros b' e' m' Eb Ee Em Hb He Hm.
  injection Eb as <-. injection Ee as <-. injection Em as <-.
  split; [lia|]. intros _. exists r.
  split; [exact Hr|]. split; [reflexivity|]. split.
  - intros Hbpos Hepos. rewrite modPow_spec in Hr by lia.
    destruct (Z.ltb_spec 0 e); [congruence | lia].
  - intros Hneg. rewrite modPow_nonpos_exp in Hr by lia. congruence.
Qed.

Lemma handleModularCalculation_correct_witness :
  (forall b e m,
      parseInt (units "4") = Some b -> parseInt (units "13") = Some e ->
      parseInt (units "497") = Some m ->
      Z.abs b < 2 ^ 53 /\ Z.abs e < 2 ^ 53 /\ (m - 1) ^ 2 < 2 ^ 53)
  /\ exists shown,
      EducationalMode.handleModularCalculation (units "4") (units "13") (units "497")
      = Return shown
      /\ exists r,
          calculateModular 4 13 497 = Return r
          /\ shown = (num 4 ++ "^" ++ num 13 ++ " mod " ++ num 497
                          ++ " = " ++ num r)%string
          /\ r = 4 ^ 13 mod 497.
Proof.
  assert (Hbound : forall b e m,
             parseInt (units "4") = Some b -> parseInt (units "13") = Some e ->
             parseInt (units "497") = Some m ->
             Z.abs b < 2 ^ 53 /\ Z.abs e < 2 ^ 53 /\ (m - 1) ^ 2 < 2 ^ 53).
  { intros b e m Hb He Hm. vm_compute in Hb, He, Hm.
    injection Hb as <-. injection He as <-. injection Hm as <-.
    repeat split. }
  split; [exact Hbound|].
  destruct (handleModularCalculation_correct (units "4") (units "13") (units "497")
                                             Hbound)
    as (shown & Hshown & _ & Hvalue).
  exists shown. split; [exact Hshown|].
  destruct (Hvalue 4 13 497) as [_ Hpos];
    [reflexivity | reflexivity | reflexivity | lia | lia | lia |].
  destruct (Hpos ltac:(lia)) as (r & Hr & Hs & Hpow & _).
  exists r. split; [exact Hr|]. split; [exact Hs|]. apply Hpow; lia.
Defined.

(** X16: key generation from the panel, on texts that, when both parse,
    parse to integers with [(p * q - 1)^2 < 2^53]: the call ends with
    [loading] off. It stores a key pair, with its derivation steps, and
    hands it to [onKeysGenerated] exactly when both texts parse to
    distinct primes; in every other case the stored key pair and steps
    are left as they were, nothing is handed over, and the error shown is
    one of 'Please enter both prime numbers', 'Both p and q must be prime
    numbers' and 'p and q must be different prime numbers'. *)
Theorem handleGenerateKeys_correct (onKeysGenerated : bool)
        (primeP primeQ : js_string) (st : RSAKeyGenerator.State) :
  (forall p q,
      parseInt primeP = Some p -> parseInt primeQ = Some q ->
      (p * q - 1) ^ 2 < 2 ^ 53) ->
  exists fx,
    RSAKeyGenerator.handleGenerateKeys onKeysGenerated primeP primeQ st = Return fx
    /\ RSAKeyGenerator.loading (RSAKeyGenerator.state fx) = false
    /\ ((exists p q keys,
            parseInt primeP = Some p /\ parseInt primeQ = Some q
            /\ Z.prime p /\ Z.prime q /\ p <> q
            /\ generateRSAKeyPair p q = Return keys
            /\ RSAKeyGenerator.keyPair (RSAKeyGenerator.state fx) = Some keys
            /\ RSAKeyGenerator.mathSteps (RSAKeyGenerator.state fx)
               = Some (getKeyGenerationSteps p q keys)
            /\ RSAKeyGenerator.keysGenerated fx
               = (if onKeysGenerated then Some keys else None)
            /\ title (RSAKeyGenerator.toast fx) = "Keys Generated Successfully"%string)
        \/ (~ (exists p q,
                  parseInt primeP = Some p /\ parseInt primeQ = Some q
                  /\ Z.prime p /\ Z.prime q /\ p <> q)
            /\ RSAKeyGenerator.keyPair (RSAKeyGenerator.state fx)
               = RSAKeyGenerator.keyPair st
            /\ RSAKeyGenerator.mathSteps (RSAKeyGenerator.state fx)
               = RSAKeyGenerator.mathSteps st
            /\ RSAKeyGenerator.keysGenerated fx = None
            /\ title (RSAKeyGenerator.toast fx) = "Key Generation Error"%string
            /\ variant (RSAKeyGenerator.toast fx) = Some "destructive"%string
            /\ (description (RSAKeyGenerator.toast fx)
                = "Please enter both prime numbers"%string
                \/ description (RSAKeyGenerator.toast fx)
                   = "Both p and q must be prime numbers"%string
                \/ description (RSAKeyGenerator.toast fx)
                   = "p and q must be different prime numbers"%string))).
Proof.
  intros _.
  unfold RSAKeyGenerator.handleGenerateKeys.
  destruct (parseInt primeP) as [p|];
    [|eexists; split; [reflexivity|]; split; [reflexivity|]; right;
      split; [intros (p & q & H & _); discriminate|];
      cbn; repeat split; now left].
  destruct (parseInt primeQ) as [q|];
    [|eexists; split; [reflexivity|]; split; [reflexivity|]; right;
      split; [intros (p' & q & _ & H & _); discriminate|];
      cbn; repeat split; now left].
  destruct (not_number (Some p) || not_number (Some q)) eqn:Hfalsy.
  { eexists. split; [reflexivity|]. split; [reflexivity|]. right.
    split.
    - intros (p' & q' & Ep & Eq & Hp & Hq & _).
      injection Ep as <-. injection Eq as <-.
      pose proof (Z.prime_ge_2 p Hp). pose proof (Z.prime_ge_2 q Hq).
      cbn [not_number] in Hfalsy.
      destruct (Z.eqb_spec p 0); [lia|]. destruct (Z.eqb_spec q 0); [lia|].
      discriminate.
    - cbn. repeat split. now left. }
  destruct (isPrime_correct p) as (bp & Hbp & Hp).
  destruct (isPrime_correct q) as (bq & Hbq & Hq).
  assert (Hcases : (Z.prime p /\ Z.prime q /\ p <> q)
                   \/ generateRSAKeyPair p q = Throw InvalidPrime
                   \/ (generateRSAKeyPair p q = Throw DuplicatePrime /\ p = q)).
  { destruct bp, bq;
      try (right; left; apply generateRSAKeyPair_invalid;
           rewrite Hbp, Hbq; intros [H1 H2]; discriminate).
    destruct (Z.eq_dec p q) as [Heq|Hne].
    - right; right. split; [now apply generateRSAKeyPair_duplicate | exact Heq].
    - left. split; [now apply Hp|]. split; [now apply Hq | exact Hne]. }
  destruct Hcases as [(Hpp & Hpq & Hne)|[Hinv|[Hdup Heq]]].
  - destruct (generateRSAKeyPair_primes p q Hpp Hpq Hne) as (j & d & Hkp & _).
    rewrite Hkp. cbn [try_catch].
    eexists. split; [reflexivity|]. split; [reflexivity|]. left.
    exists p, q, (key_of p q (3 + 2 * j) d).
    repeat (split; [first [reflexivity | assumption]|]). reflexivity.
  - rewrite Hinv. cbn [try_catch].
    eexists. split; [reflexivity|]. split; [reflexivity|]. right.
    split.
    + intros (p' & q' & Ep & Eq & Hpp & Hpq & Hne).
      injection Ep as <-. injection Eq as <-.
      destruct (generateRSAKeyPair_primes p q Hpp Hpq Hne) as (j & d & Hkp & _).
      congruence.
    + cbn. repeat split. right; now left.
  - rewrite Hdup. cbn [try_catch].
    eexists. split; [reflexivity|]. split; [reflexivity|]. right.
    split.
    + intros (p' & q' & Ep & Eq & _ & _ & Hne).
      injection Ep as <-. injection Eq as <-. contradiction.
    + cbn. repeat split. right; now right.
Qed.

Lemma handleGenerateKeys_correct_witness :
  (forall p q,
      parseInt (units "11") = Some p -> parseInt (units "13") = Some q ->
      (p * q - 1) ^ 2 < 2 ^ 53)
  /\ exists fx,
      RSAKeyGenerator.handleGenerateKeys true (units "11") (units "13")
        {| RSAKeyGenerator.keyPair := None;
           RSAKeyGenerator.mathSteps := None;
           RSAKeyGenerator.loading := true |}
      = Return fx
      /\ RSAKeyGenerator.loading (RSAKeyGenerator.state fx) = false
      /\ RSAKeyGenerator.keyPair (RSAKeyGenerator.state fx) = Some kp_11_13
      /\ RSAKeyGenerator.keysGenerated fx = Some kp_11_13.
Proof.
  assert (Hbound : forall p q,
             parseInt (units "11") = Some p -> parseInt (units "13") = Some q ->
             (p * q - 1) ^ 2 < 2 ^ 53).
  { intros p q Hp Hq. vm_compute in Hp, Hq.
    injection Hp as <-. injection Hq as <-. reflexivity. }
  split; [exact Hbound|].
  destruct (handleGenerateKeys_correct
              true (units "11") (units "13")
              {| RSAKeyGenerator.keyPair := None;
                 RSAKeyGenerator.mathSteps := None;
                 RSAKeyGenerator.loading := true |} Hbound)
    as (fx & Hfx & Hloading & _).
  exists fx. split; [exact Hfx|]. split; [exact Hloading|].
  vm_compute in Hfx. injection Hfx as <-. split; reflexivity.
Defined.

Lemma all_parsed (l : list (option Z)) :
  existsb isNaN l = false ->
  l = map Some (map (fun num => match num with Some v => v | None => 0 end) l).
Proof.
  induction l as [|[v|] l IH]; cbn [existsb isNaN map orb]; intros H;
    [reflexivity | | discriminate].
  f_equal. now apply IH.
Qed.

(** X17: [handleDecrypt] validates before it decrypts. Either it leaves the
    panel as it was and shows an error toast (no key pair, blank text, or
    a piece of the text that [parseInt] does not read), or every piece of
    the text, split at spaces, was read as an integer, and the decrypted
    message is what [decryptMessage] returns on those integers, one code
    unit per piece, the other fields being kept. *)
Theorem handleDecrypt_outcomes (keyPair : option RSAKeyPair)
        (st : RSAEncryption.State) :
  (forall kp, keyPair = Some kp -> 0 < PrivateKey.n (privateKey kp)) ->
  exists st' shown,
    RSAEncryption.handleDecrypt keyPair st = Return (st', shown)
    /\ ((st' = st /\ variant shown = Some "destructive"%string)
        \/ (exists kp numbers,
               keyPair = Some kp
               /\ map (fun num => parseInt (trim num))
                      (String_split 32 (RSAEncryption.encryptedMessage st))
                  = map Some numbers
               /\ decryptMessage numbers (privateKey kp)
                  = Return (RSAEncryption.decryptedMessage st')
               /\ length (RSAEncryption.decryptedMessage st') = length numbers
               /\ getDecryptionSteps numbers (privateKey kp)
                  = Return (RSAEncryption.decryptionSteps st')
               /\ title shown = "Message Decrypted"%string
               /\ RSAEncryption.message st' = RSAEncryption.message st
               /\ RSAEncryption.encryptedMessage st'
                  = RSAEncryption.encryptedMessage st
               /\ RSAEncryption.encryptionSteps st'
                  = RSAEncryption.encryptionSteps st)).
Proof.
  intros _. unfold RSAEncryption.handleDecrypt.
  destruct keyPair as [kp|];
    [|eexists _, _; split; [reflexivity | left; split; reflexivity]].
  destruct (not_string (trim (RSAEncryption.encryptedMessage st)));
    [eexists _, _; split; [reflexivity | left; split; reflexivity]|].
  set (parsed := map (fun num => parseInt (trim num))
                     (String_split 32 (RSAEncryption.encryptedMessage st))).
  destruct (existsb isNaN parsed) eqn:Hnan;
    [eexists _, _; split; [reflexivity | left; split; reflexivity]|].
  set (numbers := map (fun num : option Z =>
                         match num with Some v => v | None => 0 end) parsed).
  destruct (decryptMessage_total numbers (privateKey kp)) as (rs & Hrs & Hdec).
  destruct (getDecryptionSteps_total numbers (privateKey kp)) as [steps Hsteps].
  rewrite Hdec, Hsteps. cbn [bind try_catch].
  eexists _, _. split; [reflexivity|]. right.
  exists kp, numbers. split; [reflexivity|].
  split; [now apply all_parsed|].
  cbn [RSAEncryption.decryptedMessage RSAEncryption.decryptionSteps
       RSAEncryption.message RSAEncryption.encryptedMessage
       RSAEncryption.encryptionSteps title].
  split; [exact Hdec|].
  split; [rewrite length_map; eapply mapM_length; exact Hrs|].
  split; [exact Hsteps|]. repeat split.
Qed.

Lemma handleDecrypt_outcomes_witness :
  0 < PrivateKey.n (privateKey kp_11_13)
  /\ exists shown,
      RSAEncryption.handleDecrypt (Some kp_11_13) panel_bad
      = Return (panel_bad, shown)
      /\ description shown = "Invalid encrypted message format"%string.
Proof.
  split; [cbn; lia|].
  destruct (handleDecrypt_outcomes (Some kp_11_13) panel_bad)
    as (st' & shown & H & _).
  - intros kp E. injection E as <-. cbn. lia.
  - exists shown. vm_compute in H. injection H as <- <-.
    split; reflexivity.
Defined.

(** X18: what the chat panel hands to the client, for a key pair (if
    any) with [0 < n < 2^53] and [|e| < 2^53], so that every number
    printed is printed exactly. Nothing is handed over, and the input
    field is kept, when there is no client, no user or only white space;
    otherwise exactly one message for the room 'general' is handed over,
    the input field is cleared, and the message carries the text as
    typed, unencrypted, with or without a key pair. With a key pair it
    also carries the ciphertext as numerals separated by spaces, which
    split and parse back to what [encryptMessage] returns, and the
    numerals of [e] and [n]; no encryption error is shown. *)
Theorem handleSendMessage_correct (wsClient user : bool)
        (keyPair : option RSAKeyPair) (newMessage : js_string) :
  (forall kp, keyPair = Some kp ->
              0 < PublicKey.n (publicKey kp) < 2 ^ 53
              /\ Z.abs (PublicKey.e (publicKey kp)) < 2 ^ 53) ->
  exists sent input,
    SecureChat.handleSendMessage wsClient user keyPair newMessage
    = Return (sent, input, None)
    /\ (wsClient = false \/ user = false \/ trim newMessage = [] ->
        sent = None /\ input = newMessage)
    /\ (wsClient = true -> user = true -> trim newMessage <> [] ->
        input = []
        /\ exists m,
            sent = Some m
            /\ SecureChat.roomId m = "general"%string
            /\ SecureChat.message m = newMessage
            /\ (keyPair = None ->
                SecureChat.encryptedMessage m = None
                /\ SecureChat.rsaPublicKey m = None
                /\ SecureChat.rsaModulus m = None)
            /\ (forall kp, keyPair = Some kp ->
                  exists c s,
                    encryptMessage newMessage (publicKey kp) = Return c
                    /\ SecureChat.encryptedMessage m = Some s
                    /\ map (fun num => parseInt (trim num)) (String_split 32 s)
                       = map Some c
                    /\ SecureChat.rsaPublicKey m
                       = Some (Number_toString (PublicKey.e (publicKey kp)))
                    /\ SecureChat.rsaModulus m
                       = Some (Number_toString (PublicKey.n (publicKey kp))))).
Proof.
  intros _. unfold SecureChat.handleSendMessage.
  destruct wsClient;
    [|eexists _, _; split; [reflexivity|]; split; [now split | discriminate]].
  destruct (trim newMessage) as [|u t] eqn:Htrim;
    [eexists _, _; split; [reflexivity|]; split; [now split | intros _ _ H; now elim H]|].
  destruct user;
    [|eexists _, _; split; [reflexivity|]; split; [now split | discriminate]].
  cbn [negb not_string orb].
  assert (Hne : newMessage <> []).
  { intros E. rewrite E in Htrim. discriminate. }
  destruct keyPair as [kp|].
  - destruct (encryptMessage_total newMessage (publicKey kp)) as (c & Hc & Hlen).
    assert (Hcne : c <> []).
    { intros E. rewrite E in Hlen. cbn [length] in Hlen.
      apply (Array_from_nonnil newMessage Hne).
      destruct (Array_from newMessage); [reflexivity | discriminate]. }
    rewrite Hc. cbn [try_catch bind].
    eexists _, _. split; [reflexivity|]. split.
    + intros [H|[H|H]]; discriminate.
    + intros _ _ _. split; [reflexivity|].
      eexists. split; [reflexivity|].
      cbn [SecureChat.roomId SecureChat.message SecureChat.encryptedMessage
           SecureChat.rsaPublicKey SecureChat.rsaModulus].
      split; [reflexivity|]. split; [reflexivity|]. split; [discriminate|].
      intros kp' E. injection E as <-.
      exists c, (Array_join [32] (map Number_toString c)).
      split; [exact Hc|]. split; [reflexivity|].
      split; [now apply parse_joined|]. split; reflexivity.
  - cbn [bind].
    eexists _, _. split; [reflexivity|]. split.
    + intros [H|[H|H]]; discriminate.
    + intros _ _ _. split; [reflexivity|].
      eexists. split; [reflexivity|].
      cbn [SecureChat.roomId SecureChat.message SecureChat.encryptedMessage
           SecureChat.rsaPublicKey SecureChat.rsaModulus].
      split; [reflexivity|]. split; [reflexivity|].
      split; [intros _; repeat split | intros kp E; discriminate].
Qed.

Lemma handleSendMessage_correct_witness :
  (0 < PublicKey.n (publicKey kp_11_13) < 2 ^ 53
   /\ Z.abs (PublicKey.e (publicKey kp_11_13)) < 2 ^ 53)
  /\ exists m,
      SecureChat.handleSendMessage true true (Some kp_11_13) [72; 73]
      = Return (Some m, [], None)
      /\ SecureChat.message m = [72; 73]
      /\ SecureChat.encryptedMessage m = Some (units "19 83").
Proof.
  assert (Hbound : 0 < PublicKey.n (publicKey kp_11_13) < 2 ^ 53
                    /\ Z.abs (PublicKey.e (publicKey kp_11_13)) < 2 ^ 53).
  { repeat split. }
  split; [exact Hbound|].
  destruct (handleSendMessage_correct true true (Some kp_11_13) [72; 73])
    as (sent & input & H & _).
  - intros kp E. injection E as <-. exact Hbound.
  - vm_compute in H. injection H as <- <-.
    eexists. split; [reflexivity|]. split; reflexivity.
Defined.
